(** * Animated Score: a shallow embedding of the layout engine and the
    playback scheduler of [src/src/animated_score.js] (class [AnimatedScore],
    lines 283-1085), with the claims of its specification settled against it.

    Numbers of the JavaScript code are modelled as exact rationals [Q] (the
    duration tables are dyadic, so they are exact in the code too), integer
    quantities (pitch, octave, staff positions, note durations in
    sixty-fourths) as [Z], array indices and cursors as [nat]. *)

From Stdlib Require Import ZArith QArith Qround List Bool Lia Lqa.
Import ListNotations.

Open Scope Z_scope.

(** ** Music actions (classes [MusicAction], [Note], [Tempo]) *)

Record Note := mkNote {
  note : Z;       (* 0..11, pitch class *)
  octave : Z;     (* 0..6 *)
  duration : Z    (* in sixty-fourths of a whole note *)
}.

Inductive MusicAction :=
| ActNote (n : Note)
| ActTempo (tempo : Q).

(** The two clefs, written ["g"] and ["f"] in the source. *)
Inductive Clavier := ClavG | ClavF.

Definition clavier_eqb (a b : Clavier) : bool :=
  match a, b with
  | ClavG, ClavG | ClavF, ClavF => true
  | _, _ => false
  end.

(** ** Tables of the constructor *)

(** [this.noteDuration]: seconds of each symbol at 120 quarter notes per
    minute, from the whole note down to the sixty-fourth note. *)
Definition noteDuration : list Q :=
  [2; 1; 1#2; 1#4; 1#8; 1#16; 1#32]%Q.

(** [this.noteFraqDuration]: duration of each symbol in sixty-fourths. *)
Definition noteFraqDuration : list Z := [64; 32; 16; 8; 4; 2; 1].

(** [this.noteVerticalPos]: staff step of each of the 12 pitch classes. *)
Definition noteVerticalPos : list Z := [0; 0; 1; 1; 2; 3; 3; 4; 4; 5; 5; 6].

(** An image reference [this.imgs[name][index]]; the asset itself belongs
    to the renderer. *)
Record ImgRef := mkImg { img_name : nat; img_index : nat }.

(** Names of [imgNames]: 0 = note1, 1 = note2, ..., 6 = note64,
    7 = quaverBase. *)
Record NoteSymbol := mkSymbol {
  ns_img : ImgRef;
  ns_corner : Q;
  ns_duration : Q
}.

(** Strict comparison [a < b] on numbers. *)
Definition Qlt_bool (a b : Q) : bool := negb (Qle_bool b a).

Definition nthQ (l : list Q) (i : nat) : Q := nth i l 0%Q.

(** [this.noteSymbols]: per symbol id, the pair of glyph variants. Row 5
    reads [imgs["note32"][5]] in the source for its second variant. *)
Definition noteSymbols : list (NoteSymbol * NoteSymbol) :=
  [ (mkSymbol (mkImg 0 0) 6 (nthQ noteDuration 0), mkSymbol (mkImg 0 0) 6 (nthQ noteDuration 0));
    (mkSymbol (mkImg 1 0) 26 (nthQ noteDuration 1), mkSymbol (mkImg 1 1) 6 (nthQ noteDuration 1));
    (mkSymbol (mkImg 2 0) 26 (nthQ noteDuration 2), mkSymbol (mkImg 2 1) 6 (nthQ noteDuration 2));
    (mkSymbol (mkImg 3 0) 26 (nthQ noteDuration 3), mkSymbol (mkImg 3 1) 6 (nthQ noteDuration 3));
    (mkSymbol (mkImg 4 0) 26 (nthQ noteDuration 4), mkSymbol (mkImg 4 1) 6 (nthQ noteDuration 4));
    (mkSymbol (mkImg 5 0) 26 (nthQ noteDuration 5), mkSymbol (mkImg 5 5) 6 (nthQ noteDuration 5));
    (mkSymbol (mkImg 6 0) 26 (nthQ noteDuration 6), mkSymbol (mkImg 6 1) 6 (nthQ noteDuration 6));
    (mkSymbol (mkImg 7 0) 6 0, mkSymbol (mkImg 7 0) 6 0) ]%Q.

Definition default_symbol : NoteSymbol := mkSymbol (mkImg 7 0) 6 0.

Definition symbolAt (id variant : nat) : NoteSymbol :=
  let p := nth id noteSymbols (default_symbol, default_symbol) in
  match variant with 0%nat => fst p | _ => snd p end.

(** [ScoreDimensions]: [scoreHeight = 29], [canvasPadding = 20]. *)
Definition scoreHeight : Q := 29.
Definition canvasPadding : Q := 20.

(** ** [VisualNote] *)

Record VisualNote := mkVN {
  vn_img : ImgRef;
  vn_verticalPos : Z;
  vn_x : Q;
  vn_y : Q;
  vn_duration : Q
}.

Definition noteY (verticalPos : Z) (corner : Q) : Q :=
  (canvasPadding + scoreHeight - inject_Z verticalPos * (7#2) - corner + (5#2))%Q.

(** [new VisualNote(symbol, tempo, verticalPos, scoreDimensions)] *)
Definition newVisualNote (symbol : NoteSymbol) (tempo : Q) (verticalPos : Z) : VisualNote :=
  mkVN (ns_img symbol) verticalPos 0 (noteY verticalPos (ns_corner symbol))
       (ns_duration symbol * (120 / tempo))%Q.

(** [visualNote.changeSymbol(symbol, scoreDimensions)] *)
Definition changeSymbol (symbol : NoteSymbol) (vn : VisualNote) : VisualNote :=
  mkVN (ns_img symbol) (vn_verticalPos vn) (vn_x vn)
       (noteY (vn_verticalPos vn) (ns_corner symbol)) (vn_duration vn).

Definition setX (x : Q) (vn : VisualNote) : VisualNote :=
  mkVN (vn_img vn) (vn_verticalPos vn) x (vn_y vn) (vn_duration vn).

(** ** Symbol selection: the loop at the head of [createVisualNotes]

    [r = note.duration]; for each class [i] from the whole note down, if
    [noteFraqDuration[i] <= r] the symbol [i] is taken and [r] decreases;
    the loop breaks as soon as [r == 0]. *)
Fixpoint pickSymbols (fr : list Z) (i : nat) (r : Z) : list nat :=
  match fr with
  | [] => []
  | f :: fr' =>
      if f <=? r then
        if r - f =? 0 then [i] else i :: pickSymbols fr' (S i) (r - f)
      else pickSymbols fr' (S i) r
  end.

Definition symbolIds (d : Z) : list nat := pickSymbols noteFraqDuration 0 d.

(** The duration classes (in sixty-fourths) of the chosen symbols. *)
Definition decompose (d : Z) : list Z :=
  map (fun i => nth i noteFraqDuration 0) (symbolIds d).

(** ** [getNoteVerticalPos(note, clavier)]

    The table lookup is modelled for the documented pitch range 0..11; an
    index outside it reads [undefined] in the source. *)
Definition getNoteVerticalPos (n : Note) (clavier : Clavier) : Z :=
  let verticalPos := nth (Z.to_nat (note n)) noteVerticalPos 0 in
  match clavier with
  | ClavG => verticalPos + (-2 + (octave n - 3) * 7)
  | ClavF => verticalPos + (-4 + (octave n - 1) * 7)
  end.

(** The clef chosen for a note: Fa for the three lowest octaves. *)
Definition clavierOf (n : Note) : Clavier :=
  let noteID := note n + octave n * 12 in
  if noteID <? 12 * 3 then ClavF else ClavG.

(** Variant index chosen in [createVisualNotes]:
    [verticalPos > 3 ? noteSymbols[id][1] : noteSymbols[id][0]]. *)
Definition variantOf (verticalPos : Z) : nat :=
  if 3 <? verticalPos then 1%nat else 0%nat.

(** [createVisualNotes(note)] reads [gen.currentTempo] and writes
    [gen.clavier]; it is given the generation state and returns the
    updated clef together with the new visual notes (their [x] is still 0). *)
Definition createVisualNotesWith (currentTempo : Q) (n : Note)
  : Clavier * list VisualNote :=
  let clavier := clavierOf n in
  (clavier,
   map (fun id =>
          let verticalPos := getNoteVerticalPos n clavier in
          let symbol := symbolAt id (variantOf verticalPos) in
          newVisualNote symbol currentTempo verticalPos)
       (symbolIds (duration n))).

(** ** Beam geometry: [NoteLine], [QuaverSection] *)

Record NoteLine := mkLine { nl_x : Q; nl_y : Q; nl_large : Q }.

Record QuaverSection := mkSect { qs_x : Q; qs_y : Q; qs_toX : Q; qs_toY : Q }.

Record ClavierEntry := mkClavEntry { ce_clavier : Clavier; ce_time : Q }.

(** [this.gen], the state of one generation pass of [setMusicActions].
    [quaverSectionElements] holds the visual notes of the open group; the
    source keeps references to the very objects stored in
    [this.visualNotes], so they are modelled as indices into that array. *)
Record Gen := mkGen {
  currentTempo : Q;
  time : Q;
  gx : Q;
  gclavier : Clavier;
  quaverSection : bool;
  quaverTotalDuration : Q;
  quaverSectionElements : list nat
}.

(** The arrays built by [setMusicActions] and [registerNote]. *)
Record Layout := mkLayout {
  noteTime : list Q;
  visualNotes : list VisualNote;
  quaverSections : list QuaverSection;
  noteLines : list NoteLine;
  claviers : list ClavierEntry;
  gen : Gen
}.

Definition set_gen (g : Gen) (L : Layout) : Layout :=
  mkLayout (noteTime L) (visualNotes L) (quaverSections L) (noteLines L) (claviers L) g.

Definition closeGen (g : Gen) : Gen :=
  mkGen (currentTempo g) (time g) (gx g) (gclavier g) false 0 [].

Definition default_vn : VisualNote := mkVN (mkImg 7 0) 0 0 0 0.

Fixpoint update_nth {A} (f : A -> A) (k : nat) (l : list A) : list A :=
  match l, k with
  | [], _ => []
  | a :: l', O => f a :: l'
  | a :: l', S k' => a :: update_nth f k' l'
  end.

Inductive Direction := Up | Down.

(** The first loop of [createQuaverSection]: [majorVerticalPos] starts at
    -100, [minorVerticalPos] at 100, and each is replaced on a strict
    improvement, together with its index. *)
Fixpoint scanExtremes (vps : list Z) (i : nat) (major minor : Z) (majorID minorID : nat)
  : Z * Z * nat * nat :=
  match vps with
  | [] => (major, minor, majorID, minorID)
  | v :: vps' =>
      let '(major', majorID') := if major <? v then (v, i) else (major, majorID) in
      let '(minor', minorID') := if v <? minor then (v, i) else (minor, minorID) in
      scanExtremes vps' (S i) major' minor' majorID' minorID'
  end.

Definition extremes (vps : list Z) : Z * Z * nat * nat :=
  scanExtremes vps 0 (-100) 100 0 0.

(** [sectionDirection] from the extreme positions. *)
Definition directionOf (major minor : Z) : Direction :=
  let majorDV := if 3 <? major then major - 4 else 4 - major in
  let minorDV := if 3 <? minor then minor - 4 else 4 - minor in
  if (3 <? major) && (minorDV <=? majorDV) then Down else Up.

Definition sectionDirection (vps : list Z) : Direction :=
  let '(major, minor, _, _) := extremes vps in directionOf major minor.

(** Stem of one member of the group. *)
Definition stemOf (dir : Direction) (y : Q) (vn : VisualNote) : NoteLine :=
  match dir with
  | Up => mkLine (vn_x vn + (17#2)) (vn_y vn) (y - vn_y vn)
  | Down => mkLine (vn_x vn) (vn_y vn) (- (vn_y vn - y))
  end%Q.

(** The secondary-beam pass of [createQuaverSection] for the member [i]. *)
Definition secondaryOf (dir : Direction) (y sixteenth : Q)
    (notes : list VisualNote) (i : nat) : option QuaverSection :=
  let ql := length notes in
  let vn := nth i notes default_vn in
  let isS (v : VisualNote) := Qeq_bool (vn_duration v) sixteenth in
  if isS vn then
    if (0 <? i)%nat && isS (nth (i - 1) notes default_vn)
       && (negb (i + 1 <? ql)%nat || negb (isS (nth (i + 1) notes default_vn)))
    then None
    else
      let sx := match dir with Up => vn_x vn + (17#2) | Down => vn_x vn end%Q in
      let sy := match dir with Up => y + 4 | Down => y - 4 end%Q in
      if (i + 1 <? ql)%nat then
        let nextNote := nth (i + 1) notes default_vn in
        if isS nextNote then
          Some (mkSect sx sy
                  (match dir with Up => vn_x nextNote + (17#2) | Down => vn_x nextNote end)%Q sy)
        else
          let dxNext := ((vn_x nextNote - vn_x vn) / 2)%Q in
          Some (mkSect sx sy (vn_x nextNote + (17#2) - dxNext)%Q sy)
      else if (0 <? i)%nat then
        let prevNote := nth (i - 1) notes default_vn in
        let dxPrev := ((vn_x vn - vn_x prevNote) / 2)%Q in
        Some (mkSect sx sy (vn_x vn + (17#2) - dxPrev)%Q sy)
      else None
  else None.

Definition optToList {A} (o : option A) : list A :=
  match o with Some a => [a] | None => [] end.

(** [createQuaverSection()]: closes the open group of [this.gen]. *)
Definition createQuaverSection (L : Layout) : Layout :=
  let g := gen L in
  let els := quaverSectionElements g in
  if (length els <=? 1)%nat then L else
  let timeFactor := (120 / currentTempo g)%Q in
  let vps := map (fun k => vn_verticalPos (nth k (visualNotes L) default_vn)) els in
  let '(major, minor, majorID, minorID) := extremes vps in
  let vns := fold_left (fun vs k => update_nth (changeSymbol (symbolAt 7 0)) k vs)
                       els (visualNotes L) in
  let notes := map (fun k => nth k vns default_vn) els in
  let dir := sectionDirection vps in
  let l := (length els - 1)%nat in
  let first := nth 0 notes default_vn in
  let last := nth l notes default_vn in
  let primary :=
    match dir with
    | Up => let y := (vn_y (nth majorID notes default_vn) - 18)%Q in
            mkSect (vn_x first + (17#2)) y (vn_x last + (17#2)) y
    | Down => let y := (vn_y (nth minorID notes default_vn) + 6 + 18)%Q in
              mkSect (vn_x first) y (vn_x last) y
    end%Q in
  let y := qs_y primary in
  let idxs := seq 0 (length notes) in
  let stems := map (fun i => stemOf dir y (nth i notes default_vn)) idxs in
  let secondaries :=
    flat_map (fun i => optToList (secondaryOf dir y (nthQ noteDuration 4 * timeFactor) notes i)) idxs in
  mkLayout (noteTime L) vns (quaverSections L ++ primary :: secondaries)
           (noteLines L ++ stems) (claviers L) g.

(** ** [registerNote(note)] *)

Section Generation.

(** [this.velocity], pixels per second. *)
Variable velocity : Q.

(** Closing the open group: [createQuaverSection()] followed by
    [gen.quaverSection = false; gen.quaverTotalDuration = 0;
     gen.quaverSectionElements = []]. *)
Definition closeGroup (L : Layout) : Layout :=
  let L1 := createQuaverSection L in
  set_gen (closeGen (gen L1)) L1.

Definition gen_with_total (t : Q) (g : Gen) : Gen :=
  mkGen (currentTempo g) (time g) (gx g) (gclavier g) (quaverSection g) t
        (quaverSectionElements g).

Definition gen_push_element (k : nat) (g : Gen) : Gen :=
  mkGen (currentTempo g) (time g) (gx g) (gclavier g) (quaverSection g)
        (quaverTotalDuration g) (quaverSectionElements g ++ [k]).

(** [if(!gen.quaverSection && visualNote.duration <= noteDuration[3] * timeFactor)]:
    opening a group with the note [k]. *)
Definition maybeOpenGroup (d timeFactor : Q) (k : nat) (L : Layout) : Layout :=
  let g := gen L in
  if negb (quaverSection g) && Qle_bool d (nthQ noteDuration 3 * timeFactor) then
    set_gen (mkGen (currentTempo g) (time g) (gx g) (gclavier g) true
                   (quaverTotalDuration g + d) (quaverSectionElements g ++ [k])) L
  else L.

(** One iteration of the loop of [registerNote] over the new visual notes. *)
Definition registerVisualNote (changedClavier : bool) (L : Layout) (vn0 : VisualNote)
  : Layout :=
  let g := gen L in
  let d := vn_duration vn0 in
  let vn := setX (gx g) vn0 in
  let g1 := mkGen (currentTempo g) (time g + d * 1000) (gx g + d * velocity)
                  (gclavier g) (quaverSection g) (quaverTotalDuration g)
                  (quaverSectionElements g) in
  let k := length (visualNotes L) in
  let L1 := mkLayout (noteTime L ++ [time g]) (visualNotes L ++ [vn])
                     (quaverSections L) (noteLines L) (claviers L) g1 in
  let timeFactor := (120 / currentTempo g1)%Q in
  if quaverSection g1 then
    if Qlt_bool (nthQ noteDuration 3 * timeFactor) d then
      closeGroup L1                                     (* continue *)
    else
      let total := (quaverTotalDuration g1 + d)%Q in
      let L2 := set_gen (gen_with_total total g1) L1 in
      if changedClavier || Qlt_bool (1 * timeFactor) total then
        maybeOpenGroup d timeFactor k (closeGroup L2)
      else
        maybeOpenGroup d timeFactor k (set_gen (gen_push_element k (gen L2)) L2)
  else maybeOpenGroup d timeFactor k L1.

Definition gen_with_clavier (c : Clavier) (g : Gen) : Gen :=
  mkGen (currentTempo g) (time g) (gx g) c (quaverSection g)
        (quaverTotalDuration g) (quaverSectionElements g).

(** The clef bookkeeping of [registerNote]: the first note records its clef
    at time 0; a later note whose clef differs from the last recorded one
    records it at [gen.time] and sets [changedClavier]. *)
Definition pushClavier (cls : list ClavierEntry) (c : Clavier) (t : Q)
  : list ClavierEntry * bool :=
  match rev cls with
  | [] => ([mkClavEntry c 0], false)
  | last :: _ =>
      if negb (clavier_eqb (ce_clavier last) c)
      then (cls ++ [mkClavEntry c t], true)
      else (cls, false)
  end.

Definition registerNote (L : Layout) (n : Note) : Layout :=
  let '(c, vn) := createVisualNotesWith (currentTempo (gen L)) n in
  let g := gen_with_clavier c (gen L) in
  let '(cls, changedClavier) := pushClavier (claviers L) c (time g) in
  let L1 := mkLayout (noteTime L) (visualNotes L) (quaverSections L) (noteLines L) cls g in
  fold_left (registerVisualNote changedClavier) vn L1.

Definition gen_with_tempo (t : Q) (g : Gen) : Gen :=
  mkGen t (time g) (gx g) (gclavier g) (quaverSection g)
        (quaverTotalDuration g) (quaverSectionElements g).

(** The [switch] over [actions[i].type] in [setMusicActions]. *)
Definition registerAction (L : Layout) (a : MusicAction) : Layout :=
  match a with
  | ActNote n => registerNote L n
  | ActTempo t => set_gen (gen_with_tempo t (gen L)) L
  end.

(** The fresh [this.gen] of [setMusicActions]. *)
Definition initGen (playerLinePos : Q) : Gen :=
  mkGen 120 0 playerLinePos ClavG false 0 [].

(** The generation part of [setMusicActions(actions)]; the other arrays of
    the instance are kept, as the source does not clear them. *)
Definition generate (playerLinePos : Q) (L : Layout) (actions : list MusicAction) : Layout :=
  fold_left registerAction actions (set_gen (initGen playerLinePos) L).

End Generation.

(** ** Playback: the viewport cursors of [AnimatedScore] *)

Inductive Status := Stopped | Playing | Paused.

Record Viewport := mkView {
  status : Status;
  firstNote : nat;
  lastNote : nat;
  firstLine : nat;
  lastLine : nat;
  currentQuavSect : list QuaverSection;
  lastSect : nat;
  lastClavier : nat;
  dx : Q;
  timeSinceStart : Q;
  lastTime : Q
}.

(** An [AnimatedScore] instance: its configuration ([this.velocity],
    [this.canvas.width]), the generated arrays and the playback state. *)
Record Score := mkScore {
  sc_velocity : Q;
  canvasWidth : Q;
  layout : Layout;
  view : Viewport
}.

Definition playerLinePos (s : Score) : Q := (canvasWidth s / 2)%Q.

Definition set_view (v : Viewport) (s : Score) : Score :=
  mkScore (sc_velocity s) (canvasWidth s) (layout s) v.

Definition set_layout (L : Layout) (s : Score) : Score :=
  mkScore (sc_velocity s) (canvasWidth s) L (view s).

(** JavaScript values compared by [==] in [checkNoteVisualization]. *)
Inductive jsval := JsUndefined | JsNumber (q : Q).

Definition js_loose_eq (a b : jsval) : bool :=
  match a, b with
  | JsUndefined, JsUndefined => true
  | JsNumber p, JsNumber q => Qeq_bool p q
  | _, _ => false
  end.

(** [this.noteFirst]: no statement of the class assigns this property, so
    reading it yields [undefined]. *)
Definition score_noteFirst (s : Score) : jsval := JsUndefined.

(** [reset()] *)
Definition reset (v : Viewport) : Viewport :=
  mkView (status v) (firstNote v) (lastNote v) (firstLine v) (lastLine v)
         (currentQuavSect v) (lastSect v) (lastClavier v) (dx v) 0 0.

Definition set_status (st : Status) (v : Viewport) : Viewport :=
  mkView st (firstNote v) (lastNote v) (firstLine v) (lastLine v)
         (currentQuavSect v) (lastSect v) (lastClavier v) (dx v)
         (timeSinceStart v) (lastTime v).

(** [stop()]: [status = "stopped"; this.reset(); clearInterval(loopID)]. *)
Definition stop (s : Score) : Score :=
  set_view (reset (set_status Stopped (view s))) s.

(** [pause()] *)
Definition pause (s : Score) : Score :=
  set_view (set_status Paused (view s)) s.

(** [start()], at clock reading [now] ([performance.now()]). *)
Definition start (now : Q) (s : Score) : Score :=
  match status (view s) with
  | Playing => s
  | _ => let v := view s in
         set_view (mkView Playing (firstNote v) (lastNote v) (firstLine v) (lastLine v)
                          (currentQuavSect v) (lastSect v) (lastClavier v) (dx v)
                          (timeSinceStart v) now) s
  end.

(** Number of leading elements satisfying [p]: a [while] loop advancing a
    cursor. *)
Fixpoint countWhile {A} (p : A -> bool) (l : list A) : nat :=
  match l with
  | [] => O
  | a :: l' => if p a then S (countWhile p l') else O
  end.

(** [checkNoteVisualization()] *)
Definition checkNoteVisualization (s : Score) : Score :=
  let v := view s in
  let vns := visualNotes (layout s) in
  let lastNote' := (lastNote v + countWhile (fun vn => Qlt_bool (vn_x vn - dx v) (canvasWidth s))
                                            (skipn (lastNote v) vns))%nat in
  if (firstNote v <? lastNote')%nat
     && Qlt_bool (vn_x (nth (firstNote v) vns default_vn) - dx v) (-10) then
    let s1 := set_view (mkView (status v) (S (firstNote v)) lastNote' (firstLine v) (lastLine v)
                               (currentQuavSect v) (lastSect v) (lastClavier v) (dx v)
                               (timeSinceStart v) (lastTime v)) s in
    if js_loose_eq (score_noteFirst s1) (JsNumber (inject_Z (Z.of_nat (length vns))))
    then stop s1 else s1
  else set_view (mkView (status v) (firstNote v) lastNote' (firstLine v) (lastLine v)
                        (currentQuavSect v) (lastSect v) (lastClavier v) (dx v)
                        (timeSinceStart v) (lastTime v)) s.

(** [checkClavier()] *)
Definition checkClavier (s : Score) : Score :=
  let v := view s in
  let cls := claviers (layout s) in
  if (lastClavier v + 1 <? length cls)%nat
     && Qlt_bool (ce_time (nth (lastClavier v + 1) cls (mkClavEntry ClavG 0))) (timeSinceStart v)
  then set_view (mkView (status v) (firstNote v) (lastNote v) (firstLine v) (lastLine v)
                        (currentQuavSect v) (lastSect v) (S (lastClavier v)) (dx v)
                        (timeSinceStart v) (lastTime v)) s
  else s.

(** [checkNoteLine()] *)
Definition checkNoteLine (s : Score) : Score :=
  let v := view s in
  let nls := noteLines (layout s) in
  let lastLine' := (lastLine v + countWhile (fun l => Qlt_bool (nl_x l - dx v) (canvasWidth s))
                                            (skipn (lastLine v) nls))%nat in
  let firstLine' :=
    if (firstLine v <? lastLine')%nat
       && Qlt_bool (nl_x (nth (firstLine v) nls (mkLine 0 0 0)) - dx v) (-10)
    then S (firstLine v) else firstLine v in
  set_view (mkView (status v) (firstNote v) (lastNote v) firstLine' lastLine'
                   (currentQuavSect v) (lastSect v) (lastClavier v) (dx v)
                   (timeSinceStart v) (lastTime v)) s.

(** [checkQuaverSection()]: admit at most 4 sections entering on the right,
    then retire at most 4 sections that left on the left. *)
Definition checkQuaverSection (s : Score) : Score :=
  let v := view s in
  let pending := skipn (lastSect v) (quaverSections (layout s)) in
  let n := countWhile (fun q => Qlt_bool (qs_x q - dx v) (canvasWidth s)) (firstn 4 pending) in
  let cur := currentQuavSect v ++ firstn n pending in
  let toDelete := countWhile (fun q => Qlt_bool (qs_toX q - dx v) (-10)) (firstn 4 cur) in
  set_view (mkView (status v) (firstNote v) (lastNote v) (firstLine v) (lastLine v)
                   (skipn toDelete cur) (lastSect v + n) (lastClavier v) (dx v)
                   (timeSinceStart v) (lastTime v)) s.

(** [update()], at clock reading [now]; the canvas translation belongs to
    the renderer. *)
Definition update (now : Q) (s : Score) : Score :=
  let v := view s in
  let deltaTime := (now - lastTime v)%Q in
  let s0 := set_view (mkView (status v) (firstNote v) (lastNote v) (firstLine v) (lastLine v)
                             (currentQuavSect v) (lastSect v) (lastClavier v) (dx v)
                             (timeSinceStart v) now) s in
  let s1 := checkQuaverSection (checkNoteLine (checkClavier (checkNoteVisualization s0))) in
  let v1 := view s1 in
  set_view (mkView (status v1) (firstNote v1) (lastNote v1) (firstLine v1) (lastLine v1)
                   (currentQuavSect v1) (lastSect v1) (lastClavier v1)
                   (dx v1 + sc_velocity s1 * deltaTime / 1000)
                   (timeSinceStart v1 + deltaTime) (lastTime v1)) s1.

(** [setMusicActions(actions)] (the final [draw()] belongs to the renderer). *)
Definition setMusicActions (actions : list MusicAction) (s : Score) : Score :=
  let L := generate (sc_velocity s) (playerLinePos s) (layout s) actions in
  checkQuaverSection (checkNoteLine (checkNoteVisualization (set_layout L s))).

(** The state left by the constructor, for a canvas of width [w]. *)
(** [this.gen] is only created by [setMusicActions]; the placeholder below
    is overwritten before it is read. *)
Definition emptyLayout : Layout := mkLayout [] [] [] [] [] (initGen 0).

Definition initView : Viewport := mkView Stopped 0 0 0 0 [] 0 0 0 0 0.

Definition newScore (velocity w : Q) : Score := mkScore velocity w emptyLayout initView.

(** ** Specification-side notions *)

(** A relation holding between every two neighbours of a list. *)
Fixpoint adjacent {A} (R : A -> A -> Prop) (l : list A) : Prop :=
  match l with
  | a :: ((b :: _) as t) => R a b /\ adjacent R t
  | _ => True
  end.

Fixpoint last_opt {A} (l : list A) : option A :=
  match l with
  | [] => None
  | [a] => Some a
  | _ :: l' => last_opt l'
  end.

(** Horizontal position and duration of a visual note. *)
Definition xd (vn : VisualNote) : Q * Q := (vn_x vn, vn_duration vn).

(** The part of the generation state that the group logic never touches. *)
Definition gcore (g : Gen) : Q * Q * Q := (currentTempo g, time g, gx g).

(** Positions and durations of notes laid out one after the other from [x],
    each advancing the cursor by its duration times [v]. *)
Fixpoint chainXs (v x : Q) (ds : list Q) : list (Q * Q) :=
  match ds with
  | [] => []
  | d :: ds' => (x, d) :: chainXs v (x + d * v)%Q ds'
  end.

Fixpoint chainEnd (v x : Q) (ds : list Q) : Q :=
  match ds with
  | [] => x
  | d :: ds' => chainEnd v (x + d * v)%Q ds'
  end.

(** Two consecutive visual notes [a], [b]: [b] starts exactly [duration(a)
    * v] pixels after [a], and not before it. *)
Definition xstep (v : Q) (a b : Q * Q) : Prop :=
  fst b = (fst a + snd a * v)%Q /\ (fst a <= fst b)%Q.

(** Neighbouring clef regions: activation times strictly increase, and
    the clef changes. *)
Definition time_lt (a b : ClavierEntry) : Prop := (ce_time a < ce_time b)%Q.

Definition clef_differs (a b : ClavierEntry) : Prop := ce_clavier a <> ce_clavier b.

(** The base table of the specification (pitch class to diatonic step). *)
Definition spec_baseTable : list Z := [0; 0; 1; 1; 2; 3; 3; 4; 4; 5; 5; 6].

(** The numerically highest and lowest of a list of staff positions. *)
Definition highest (l : list Z) : Z :=
  match l with [] => 0 | a :: t => fold_left Z.max t a end.

Definition lowest (l : list Z) : Z :=
  match l with [] => 0 | a :: t => fold_left Z.min t a end.

(** Distance of a staff position from the reference boundary, as the
    specification writes it: [p > 3 ? p - 4 : 4 - p]. *)
Definition distFrom4 (p : Z) : Z := if 3 <? p then p - 4 else 4 - p.

(** A note of the documented ranges: pitch class 0..11, octave 0..6. *)
Definition validNote (n : Note) : Prop := 0 <= note n <= 11 /\ 0 <= octave n <= 6.

(** What the specification asks of [stop()]: elapsed time 0 and every
    visibility cursor back at its initial position. *)
Definition cursors_rewound (v : Viewport) : Prop :=
  timeSinceStart v = 0%Q /\ firstNote v = O /\ lastNote v = O /\
  firstLine v = O /\ lastLine v = O /\ lastSect v = O /\ currentQuavSect v = [] /\
  lastClavier v = O.

(** Invariant of one generation pass, for the notes it appends to [P]. *)
Definition xinv (v : Q) (P : list (Q * Q)) (L : Layout) : Prop :=
  exists S, map xd (visualNotes L) = P ++ S /\ adjacent (xstep v) S /\
    (forall a, last_opt S = Some a -> gx (gen L) = (fst a + snd a * v)%Q /\ (0 <= snd a)%Q) /\
    (0 < currentTempo (gen L))%Q.

(** Invariant of one generation pass, for the clef regions it appends to
    [cls0]. *)
Definition cinv (cls0 : list ClavierEntry) (L : Layout) : Prop :=
  exists added, claviers L = cls0 ++ added /\ adjacent time_lt added /\
    adjacent clef_differs (optToList (last_opt cls0) ++ added) /\
    (forall e, last_opt added = Some e -> (ce_time e < time (gen L))%Q) /\
    (claviers L = [] -> time (gen L) = 0%Q) /\
    (0 < currentTempo (gen L))%Q.

(** Below two whole notes the decomposition is the binary representation:
    classes from the table, strictly decreasing, summing to the duration. *)
Definition binaryClasses (d : Z) : list Z :=
  filter (fun c => Z.testbit d (Z.log2 c)) noteFraqDuration.

Fixpoint strictly_decreasing (l : list Z) : bool :=
  match l with
  | a :: ((b :: _) as t) => (b <? a) && strictly_decreasing t
  | _ => true
  end.

Definition decompose_ok (d : Z) : bool :=
  (fold_right Z.add 0 (decompose d) =? d) &&
  forallb (fun c => existsb (Z.eqb c) noteFraqDuration) (decompose d) &&
  strictly_decreasing (decompose d) &&
  (if list_eq_dec Z.eq_dec (decompose d) (binaryClasses d) then true else false).

(** ** Notions used by the further properties *)

(** Sum of a list of numbers. *)
Definition sumQ (l : list Q) : Q := fold_right Qplus 0%Q l.

(** The open beam group of [this.gen]: when [gen.quaverSection] is set,
    its elements are the indices of the last visual notes, in order, and
    [gen.quaverTotalDuration] is the sum of their durations; otherwise
    the group is empty with total 0. *)
Definition group_ok (L : Layout) : Prop :=
  let g := gen L in
  if quaverSection g then
    exists a m, (0 < m)%nat /\ quaverSectionElements g = seq a m /\
      (a + m)%nat = length (visualNotes L) /\
      (quaverTotalDuration g ==
         sumQ (map (fun k => nth k (map vn_duration (visualNotes L)) 0) (seq a m)))%Q
  else quaverSectionElements g = [] /\ (quaverTotalDuration g == 0)%Q.

(** The visual notes from index [n0] and the note times from index [t0]
    are paired by [x = playerLinePos + velocity * t / 1000], and the
    generation cursor [gen.x] is at the position of [gen.time]. *)
Definition tinv (v plp : Q) (n0 t0 : nat) (L : Layout) : Prop :=
  (n0 <= length (visualNotes L))%nat /\ (t0 <= length (noteTime L))%nat /\
  Forall2 (fun x t => x == plp + v * t / 1000)%Q
          (skipn n0 (map vn_x (visualNotes L))) (skipn t0 (noteTime L)) /\
  (gx (gen L) == plp + v * time (gen L) / 1000)%Q.

(** [p] is a prefix of [l]. *)
Definition is_prefix {A} (p l : list A) : Prop := exists s, l = p ++ s.

(** Every array of [L0] is a prefix of the same array of [L]. *)
Definition extends (L0 L : Layout) : Prop :=
  is_prefix (noteTime L0) (noteTime L) /\ is_prefix (visualNotes L0) (visualNotes L) /\
  is_prefix (quaverSections L0) (quaverSections L) /\ is_prefix (noteLines L0) (noteLines L) /\
  is_prefix (claviers L0) (claviers L).

(** [L] extends [L0] and its open group only holds notes added after [L0]. *)
Definition einv (L0 L : Layout) : Prop :=
  extends L0 L /\ Forall (fun k => length (visualNotes L0) <= k)%nat (quaverSectionElements (gen L)).

(** The public calls of an [AnimatedScore] instance that change its state;
    [start] and [update] read the clock, [performance.now()], as [now]. *)
Inductive Op :=
| OpSetMusicActions (actions : list MusicAction)
| OpStart (now : Q)
| OpPause
| OpStop
| OpUpdate (now : Q).

Definition applyOp (s : Score) (o : Op) : Score :=
  match o with
  | OpSetMusicActions acts => setMusicActions acts s
  | OpStart now => start now s
  | OpPause => pause s
  | OpStop => stop s
  | OpUpdate now => update now s
  end.

(** The calls that drive playback without regenerating the score. *)
Definition isPlaybackControl (o : Op) : bool :=
  match o with OpStart _ | OpPause | OpUpdate _ => true | _ => false end.

(** The cursors read by [draw()] index into the generated arrays:
    [drawNotes] reads [visualNotes[firstNote .. lastNote)], [drawNoteLines]
    reads [noteLines[firstLine .. lastLine)], [checkQuaverSection] slices
    [quaverSections] from [lastSect], and [drawClavier] reads
    [claviers[lastClavier]]. *)
Definition view_ok (s : Score) : Prop :=
  let v := view s in
  let L := layout s in
  (firstNote v <= lastNote v <= length (visualNotes L))%nat /\
  (firstLine v <= lastLine v <= length (noteLines L))%nat /\
  (lastSect v <= length (quaverSections L))%nat /\
  (lastClavier v = 0 \/ lastClavier v < length (claviers L))%nat.

(** The scroll offset is the distance covered in the elapsed playing time. *)
Definition synced (s : Score) : Prop :=
  (dx (view s) == sc_velocity s * timeSinceStart (view s) / 1000)%Q.

(** The clef [drawClavier] draws: [this.claviers[this.lastClavier].clavier];
    [None] when the entry is missing, where the source throws. *)
Definition drawnClavier (s : Score) : option Clavier :=
  option_map ce_clavier (nth_error (claviers (layout s)) (lastClavier (view s))).

(** The first note among the actions. *)
Fixpoint firstNoteOf (acts : list MusicAction) : option Note :=
  match acts with
  | [] => None
  | ActNote n :: _ => Some n
  | ActTempo _ :: acts' => firstNoteOf acts'
  end.

(** What the per-frame checks leave unchanged. *)
Definition pframe (s s' : Score) : Prop :=
  layout s' = layout s /\ sc_velocity s' = sc_velocity s /\ canvasWidth s' = canvasWidth s /\
  dx (view s') = dx (view s) /\ timeSinceStart (view s') = timeSinceStart (view s) /\
  lastTime (view s') = lastTime (view s) /\ status (view s') = status (view s).

(** Two layouts, the first at tempo [bpm], the second at 120 bpm, with the
    same beam group and the group total of the first expressed in its own
    time unit: [120 / bpm] times that of the second. *)
Definition tscale (bpm : Q) (L1 L2 : Layout) : Prop :=
  currentTempo (gen L1) = bpm /\ currentTempo (gen L2) = 120%Q /\
  quaverSection (gen L1) = quaverSection (gen L2) /\
  quaverSectionElements (gen L1) = quaverSectionElements (gen L2) /\
  (quaverTotalDuration (gen L1) == quaverTotalDuration (gen L2) * (120 / bpm))%Q /\
  length (visualNotes L1) = length (visualNotes L2).

(** ** General lemmas *)

Lemma adjacent_snoc {A} (R : A -> A -> Prop) (l : list A) (b : A) :
  adjacent R l -> (forall a, last_opt l = Some a -> R a b) -> adjacent R (l ++ [b]).
Proof.
  induction l as [|a l IH]; intros Hl Hlast; [exact I|].
  destruct l as [|a' l'].
  - simpl. split; [apply Hlast; reflexivity | exact I].
  - destruct Hl as [Hab Ht]. split; [exact Hab|].
    apply IH; [exact Ht|]. intros x Hx. apply Hlast. exact Hx.
Qed.

Lemma last_opt_snoc {A} (l : list A) (b : A) : last_opt (l ++ [b]) = Some b.
Proof.
  induction l as [|a l IH]; [reflexivity|].
  simpl. destruct (l ++ [b]) eqn:E; [destruct l; discriminate|]. exact IH.
Qed.

Lemma update_nth_map {A B} (g : A -> B) (f : A -> A) (k : nat) (l : list A) :
  (forall a, g (f a) = g a) -> map g (update_nth f k l) = map g l.
Proof.
  intros Hf. revert k. induction l as [|a l IH]; intros [|k]; simpl; try reflexivity.
  - rewrite Hf. reflexivity.
  - rewrite IH. reflexivity.
Qed.

Lemma fold_update_nth_map {A B} (g : A -> B) (f : A -> A) (ks : list nat) (l : list A) :
  (forall a, g (f a) = g a) ->
  map g (fold_left (fun vs k => update_nth f k vs) ks l) = map g l.
Proof.
  intros Hf. revert l. induction ks as [|k ks IH]; intros l; simpl; [reflexivity|].
  rewrite IH. apply update_nth_map. exact Hf.
Qed.

(** Closing a beam group restyles the notes of the group (glyph and [y])
    and adds beams and stems; positions, durations, the clef list and the
    generation state are left as they are. *)
Lemma createQuaverSection_frame (L : Layout) :
  map xd (visualNotes (createQuaverSection L)) = map xd (visualNotes L) /\
  claviers (createQuaverSection L) = claviers L /\
  gen (createQuaverSection L) = gen L.
Proof.
  unfold createQuaverSection.
  destruct (length (quaverSectionElements (gen L)) <=? 1)%nat; [repeat split|].
  destruct (extremes _) as [[[major minor] majorID] minorID].
  simpl. repeat split.
  apply fold_update_nth_map. intros a. reflexivity.
Qed.

Lemma closeGroup_frame (L : Layout) :
  map xd (visualNotes (closeGroup L)) = map xd (visualNotes L) /\
  claviers (closeGroup L) = claviers L /\
  gcore (gen (closeGroup L)) = gcore (gen L).
Proof.
  unfold closeGroup. destruct (createQuaverSection_frame L) as (H1 & H2 & H3).
  simpl. rewrite H1, H2, H3. repeat split.
Qed.

Lemma maybeOpenGroup_frame (d tf : Q) (k : nat) (L : Layout) :
  visualNotes (maybeOpenGroup d tf k L) = visualNotes L /\
  claviers (maybeOpenGroup d tf k L) = claviers L /\
  gcore (gen (maybeOpenGroup d tf k L)) = gcore (gen L).
Proof.
  unfold maybeOpenGroup.
  destruct (negb (quaverSection (gen L)) && _); repeat split.
Qed.

Lemma closeGroup_xd (L : Layout) :
  map xd (visualNotes (closeGroup L)) = map xd (visualNotes L).
Proof. apply closeGroup_frame. Qed.

Lemma closeGroup_claviers (L : Layout) : claviers (closeGroup L) = claviers L.
Proof. apply closeGroup_frame. Qed.

Lemma closeGroup_gcore (L : Layout) : gcore (gen (closeGroup L)) = gcore (gen L).
Proof. apply closeGroup_frame. Qed.

Lemma maybeOpenGroup_vns (d tf : Q) (k : nat) (L : Layout) :
  visualNotes (maybeOpenGroup d tf k L) = visualNotes L.
Proof. apply maybeOpenGroup_frame. Qed.

Lemma maybeOpenGroup_claviers (d tf : Q) (k : nat) (L : Layout) :
  claviers (maybeOpenGroup d tf k L) = claviers L.
Proof. apply maybeOpenGroup_frame. Qed.

Lemma maybeOpenGroup_gcore (d tf : Q) (k : nat) (L : Layout) :
  gcore (gen (maybeOpenGroup d tf k L)) = gcore (gen L).
Proof. apply maybeOpenGroup_frame. Qed.

Create Rewrite HintDb frame.
#[export] Hint Rewrite closeGroup_xd closeGroup_claviers closeGroup_gcore
  maybeOpenGroup_vns maybeOpenGroup_claviers maybeOpenGroup_gcore : frame.

Lemma registerVisualNote_frame (v : Q) (ch : bool) (L : Layout) (vn0 : VisualNote) :
  let L' := registerVisualNote v ch L vn0 in
  map xd (visualNotes L') = map xd (visualNotes L) ++ [(gx (gen L), vn_duration vn0)] /\
  claviers L' = claviers L /\
  gcore (gen L') = (currentTempo (gen L), (time (gen L) + vn_duration vn0 * 1000)%Q,
                    (gx (gen L) + vn_duration vn0 * v)%Q).
Proof.
  unfold registerVisualNote; cbv zeta.
  repeat match goal with
         | |- context [if ?c then _ else _] => destruct c
         end;
  autorewrite with frame; cbn; rewrite ?map_app; repeat split.
Qed.

Lemma registerVisualNotes_frame (v : Q) (ch : bool) (vns : list VisualNote) (L : Layout) :
  let L' := fold_left (registerVisualNote v ch) vns L in
  let ds := map vn_duration vns in
  map xd (visualNotes L') = map xd (visualNotes L) ++ chainXs v (gx (gen L)) ds /\
  claviers L' = claviers L /\
  gcore (gen L') = (currentTempo (gen L), chainEnd 1000 (time (gen L)) ds,
                    chainEnd v (gx (gen L)) ds).
Proof.
  revert L. induction vns as [|vn vns IH]; intros L; cbn zeta.
  - rewrite app_nil_r. repeat split.
  - simpl fold_left. destruct (IH (registerVisualNote v ch L vn)) as (A1 & A2 & A3).
    destruct (registerVisualNote_frame v ch L vn) as (B1 & B2 & B3).
    unfold gcore in B3. injection B3 as E1 E2 E3.
    rewrite A1, A2, A3, B1, B2, E1, E2, E3, <- app_assoc. repeat split.
Qed.

Lemma registerNote_frame (v : Q) (L : Layout) (n : Note) :
  let L' := registerNote v L n in
  let ds := map vn_duration (snd (createVisualNotesWith (currentTempo (gen L)) n)) in
  map xd (visualNotes L') = map xd (visualNotes L) ++ chainXs v (gx (gen L)) ds /\
  claviers L' = fst (pushClavier (claviers L) (clavierOf n) (time (gen L))) /\
  gcore (gen L') = (currentTempo (gen L), chainEnd 1000 (time (gen L)) ds,
                    chainEnd v (gx (gen L)) ds).
Proof.
  unfold registerNote.
  replace (createVisualNotesWith (currentTempo (gen L)) n)
    with (clavierOf n, snd (createVisualNotesWith (currentTempo (gen L)) n)) by reflexivity.
  set (vns := snd (createVisualNotesWith (currentTempo (gen L)) n)).
  cbv beta iota zeta.
  destruct (pushClavier _ _ _) as [cls ch] eqn:Epush.
  destruct (registerVisualNotes_frame v ch vns
              (mkLayout (noteTime L) (visualNotes L) (quaverSections L) (noteLines L) cls
                        (gen_with_clavier (clavierOf n) (gen L)))) as (A1 & A2 & A3).
  cbv zeta in A1, A2, A3. rewrite A1, A2, A3. repeat split.
Qed.

Lemma pickSymbols_range (fr : list Z) (i : nat) (r : Z) (id : nat) :
  In id (pickSymbols fr i r) -> (i <= id < i + length fr)%nat.
Proof.
  revert i r. induction fr as [|f fr IH]; intros i r Hin; simpl in *; [contradiction|].
  destruct (f <=? r).
  - destruct (r - f =? 0).
    + destruct Hin as [<-|[]]. lia.
    + destruct Hin as [<-|Hin]; [lia|]. apply IH in Hin. lia.
  - apply IH in Hin. lia.
Qed.

Lemma symbolIds_lt7 (d : Z) (id : nat) : In id (symbolIds d) -> (id < 7)%nat.
Proof. intros H. apply pickSymbols_range in H. simpl in H. lia. Qed.

Lemma symbolAt_duration (id variant : nat) :
  (id < 7)%nat -> ns_duration (symbolAt id variant) = nthQ noteDuration id.
Proof.
  intros H. do 7 (destruct id as [|id]; [destruct variant; reflexivity|]). lia.
Qed.

Lemma noteDuration_pos (id : nat) : (id < 7)%nat -> (0 < nthQ noteDuration id)%Q.
Proof.
  intros H. do 7 (destruct id as [|id]; [reflexivity|]). lia.
Qed.

Lemma timeFactor_pos (t : Q) : (0 < t)%Q -> (0 < 120 / t)%Q.
Proof.
  intros H. unfold Qdiv. apply Qmult_lt_0_compat; [reflexivity|].
  apply Qinv_lt_0_compat. exact H.
Qed.

Lemma createVisualNotes_durations (t : Q) (n : Note) :
  map vn_duration (snd (createVisualNotesWith t n)) =
  map (fun id => (nthQ noteDuration id * (120 / t))%Q) (symbolIds (duration n)).
Proof.
  unfold createVisualNotesWith; simpl. rewrite map_map.
  apply map_ext_in. intros id Hin. simpl.
  rewrite symbolAt_duration by (eapply symbolIds_lt7; exact Hin). reflexivity.
Qed.

Lemma createVisualNotes_pos (t : Q) (n : Note) :
  (0 < t)%Q -> Forall (fun d => 0 < d)%Q (map vn_duration (snd (createVisualNotesWith t n))).
Proof.
  intros Ht. rewrite createVisualNotes_durations. apply Forall_forall.
  intros d Hd. apply in_map_iff in Hd. destruct Hd as (id & <- & Hin).
  apply Qmult_lt_0_compat; [|apply timeFactor_pos; exact Ht].
  apply noteDuration_pos. eapply symbolIds_lt7. exact Hin.
Qed.

Lemma chain_app (v x : Q) (S : list (Q * Q)) (ds : list Q) :
  (0 <= v)%Q -> Forall (fun d => 0 <= d)%Q ds -> adjacent (xstep v) S ->
  (forall a, last_opt S = Some a -> x = (fst a + snd a * v)%Q /\ (0 <= snd a)%Q) ->
  adjacent (xstep v) (S ++ chainXs v x ds) /\
  (forall a, last_opt (S ++ chainXs v x ds) = Some a ->
             chainEnd v x ds = (fst a + snd a * v)%Q /\ (0 <= snd a)%Q).
Proof.
  intros Hv Hds. revert S x. induction Hds as [|d ds Hd Hds IH]; intros S x HS Hlast.
  - rewrite app_nil_r. split; [exact HS | exact Hlast].
  - simpl chainXs. simpl chainEnd.
    replace (S ++ (x, d) :: chainXs v (x + d * v) ds)
      with ((S ++ [(x, d)]) ++ chainXs v (x + d * v) ds) by (rewrite <- app_assoc; reflexivity).
    apply IH.
    + apply adjacent_snoc; [exact HS|].
      intros a Ha. destruct (Hlast a Ha) as [Ex Ha0]. unfold xstep; simpl. split; [exact Ex|].
      rewrite Ex. assert (0 <= snd a * v)%Q by (apply Qmult_le_0_compat; assumption). lra.
    + intros a Ha. rewrite last_opt_snoc in Ha. injection Ha as <-. simpl. split; [reflexivity | exact Hd].
Qed.

Lemma setMusicActions_layout (acts : list MusicAction) (s : Score) :
  layout (setMusicActions acts s) =
  generate (sc_velocity s) (playerLinePos s) (layout s) acts.
Proof.
  unfold setMusicActions, checkQuaverSection, checkNoteLine, checkNoteVisualization.
  cbv zeta. destruct (_ && _); [destruct (js_loose_eq _ _)|]; reflexivity.
Qed.


Lemma registerAction_xinv (v : Q) (P : list (Q * Q)) (L : Layout) (a : MusicAction) :
  (0 <= v)%Q -> (forall t, a = ActTempo t -> 0 < t)%Q ->
  xinv v P L -> xinv v P (registerAction v L a).
Proof.
  intros Hv Ha (S & HL & HS & Hlast & Ht). destruct a as [n|t]; simpl.
  - destruct (registerNote_frame v L n) as (A1 & _ & A3).
    cbv zeta in A1, A3. unfold gcore in A3. injection A3 as E1 E2 E3.
    destruct (chain_app v (gx (gen L)) S
                (map vn_duration (snd (createVisualNotesWith (currentTempo (gen L)) n)))
                Hv) as [C1 C2].
    { eapply Forall_impl; [|apply createVisualNotes_pos; exact Ht].
      intros d Hd; simpl in Hd. lra. }
    { exact HS. }
    { exact Hlast. }
    exists (S ++ chainXs v (gx (gen L))
                   (map vn_duration (snd (createVisualNotesWith (currentTempo (gen L)) n)))).
    rewrite A1, HL, app_assoc, E1. split; [reflexivity|]. split; [exact C1|].
    split; [intros a' Ha'; rewrite E3; exact (C2 a' Ha') | exact Ht].
  - exists S. split; [exact HL|]. split; [exact HS|]. split; [exact Hlast|].
    apply Ha. reflexivity.
Qed.

Lemma generate_xinv (v plp : Q) (L : Layout) (acts : list MusicAction) :
  (0 <= v)%Q -> (forall t, In (ActTempo t) acts -> 0 < t)%Q ->
  xinv v (map xd (visualNotes L)) (generate v plp L acts).
Proof.
  intros Hv Hacts. unfold generate.
  assert (H0 : xinv v (map xd (visualNotes L)) (set_gen (initGen plp) L)).
  { exists []. rewrite app_nil_r. repeat split; try discriminate. }
  revert H0. generalize (set_gen (initGen plp) L) as L0.
  induction acts as [|a acts IH]; intros L0 H0; simpl; [exact H0|].
  apply IH.
  - intros t Ht. apply Hacts. right. exact Ht.
  - apply registerAction_xinv; [exact Hv| |exact H0].
    intros t ->. apply Hacts. left. reflexivity.
Qed.

Lemma skipn_length_app {A} (P S : list A) : skipn (length P) (P ++ S) = S.
Proof. induction P as [|a P IH]; simpl; [reflexivity | exact IH]. Qed.

Lemma rev_last_opt {A} (l : list A) :
  match rev l with [] => l = [] | a :: _ => last_opt l = Some a end.
Proof.
  destruct (rev l) as [|a r] eqn:E.
  - apply (f_equal (@rev A)) in E. rewrite rev_involutive in E. exact E.
  - apply (f_equal (@rev A)) in E. rewrite rev_involutive in E. simpl in E.
    rewrite E. apply last_opt_snoc.
Qed.

Lemma clavier_eqb_false (a b : Clavier) : clavier_eqb a b = false -> a <> b.
Proof. destruct a, b; simpl; congruence. Qed.

Lemma symbolIds_nonempty (d : Z) : 1 <= d -> symbolIds d <> [].
Proof.
  intros Hd. unfold symbolIds, noteFraqDuration. simpl.
  repeat match goal with
         | |- context [Z.leb ?a ?b] => destruct (Z.leb_spec a b)
         | |- context [Z.eqb ?a ?b] => destruct (Z.eqb_spec a b)
         end; try discriminate; lia.
Qed.

Lemma chainEnd_ge (v x : Q) (ds : list Q) :
  (0 <= v)%Q -> Forall (fun d => 0 <= d)%Q ds -> (x <= chainEnd v x ds)%Q.
Proof.
  intros Hv Hds. revert x. induction Hds as [|d ds Hd Hds IH]; intros x; simpl; [lra|].
  specialize (IH (x + d * v)%Q). assert (0 <= d * v)%Q by (apply Qmult_le_0_compat; assumption).
  lra.
Qed.

Lemma chainEnd_gt (v x : Q) (ds : list Q) :
  (0 < v)%Q -> Forall (fun d => 0 < d)%Q ds -> ds <> [] -> (x < chainEnd v x ds)%Q.
Proof.
  intros Hv Hds Hne. destruct Hds as [|d ds Hd Hds]; [congruence|]. simpl.
  assert (0 < d * v)%Q by (apply Qmult_lt_0_compat; assumption).
  assert (x + d * v <= chainEnd v (x + d * v) ds)%Q.
  { apply chainEnd_ge; [lra|]. eapply Forall_impl; [|exact Hds]. intros e He; simpl in *; lra. }
  lra.
Qed.


Lemma last_opt_app {A} (l1 l2 : list A) :
  last_opt (l1 ++ l2) = match last_opt l2 with Some a => Some a | None => last_opt l1 end.
Proof.
  induction l1 as [|a l1 IH].
  - simpl. destruct (last_opt l2); reflexivity.
  - destruct l2 as [|b l2].
    + rewrite app_nil_r. reflexivity.
    + change ((a :: l1) ++ b :: l2) with (a :: (l1 ++ b :: l2)).
      assert (Hne : l1 ++ b :: l2 <> []) by (destruct l1; discriminate).
      transitivity (last_opt (l1 ++ b :: l2)).
      * simpl. destruct (l1 ++ b :: l2); [congruence | reflexivity].
      * rewrite IH. destruct (last_opt (b :: l2)) eqn:E; [reflexivity|].
        exfalso. clear -E. revert b E. induction l2 as [|c l2 IH2]; intros b E;
          [discriminate | exact (IH2 c E)].
Qed.

Lemma last_opt_optToList {A} (o : option A) : last_opt (optToList o) = o.
Proof. destruct o; reflexivity. Qed.

Lemma registerNote_cinv (v : Q) (cls0 : list ClavierEntry) (L : Layout) (n : Note) :
  1 <= duration n -> cinv cls0 L -> cinv cls0 (registerNote v L n).
Proof.
  intros Hd (added & HL & Hinc & Hdiff & Hlast & Hempty & Ht).
  destruct (registerNote_frame v L n) as (_ & A2 & A3).
  cbv zeta in A2, A3. unfold gcore in A3. injection A3 as E1 E2 _.
  set (ds := map vn_duration (snd (createVisualNotesWith (currentTempo (gen L)) n))) in *.
  assert (Hlt : (time (gen L) < time (gen (registerNote v L n)))%Q).
  { rewrite E2. apply chainEnd_gt; [reflexivity | apply createVisualNotes_pos; exact Ht|].
    subst ds. unfold createVisualNotesWith; simpl.
    intros Hnil. apply map_eq_nil in Hnil. apply map_eq_nil in Hnil.
    exact (symbolIds_nonempty _ Hd Hnil). }
  unfold pushClavier in A2.
  pose proof (rev_last_opt (claviers L)) as Hrev.
  destruct (rev (claviers L)) as [|last r].
  - (* first note of the instance *)
    rewrite HL in Hrev. apply app_eq_nil in Hrev. destruct Hrev as [-> ->].
    exists [mkClavEntry (clavierOf n) 0]. simpl in A2. rewrite A2.
    split; [reflexivity|]. split; [exact I|]. split; [exact I|]. split.
    + intros e He. injection He as <-. simpl. rewrite <- (Hempty HL). exact Hlt.
    + split; [discriminate|]. rewrite E1. exact Ht.
  - destruct (clavier_eqb (ce_clavier last) (clavierOf n)) eqn:Eq; simpl in A2.
    + exists added. rewrite A2. split; [exact HL|]. split; [exact Hinc|]. split; [exact Hdiff|].
      split.
      * intros e He. specialize (Hlast e He). lra.
      * split; [intros Hnil; rewrite Hnil in Hrev; discriminate|].
        rewrite E1. exact Ht.
    + exists (added ++ [mkClavEntry (clavierOf n) (time (gen L))]).
      rewrite A2, HL, app_assoc. split; [reflexivity|]. split.
      { apply adjacent_snoc; [exact Hinc|]. intros e He. apply Hlast. exact He. }
      split.
      { rewrite app_assoc. apply adjacent_snoc; [exact Hdiff|].
        intros e He. rewrite last_opt_app, last_opt_optToList, <- last_opt_app in He.
        rewrite <- HL, Hrev in He. injection He as <-. unfold clef_differs. simpl.
        apply clavier_eqb_false. exact Eq. }
      split.
      { intros e He. rewrite last_opt_snoc in He. injection He as <-. simpl. exact Hlt. }
      split; [intros Hnil; apply app_eq_nil in Hnil; destruct Hnil; discriminate|]. rewrite E1. exact Ht.
Qed.

Lemma generate_cinv (v plp : Q) (L : Layout) (acts : list MusicAction) :
  (forall n, In (ActNote n) acts -> 1 <= duration n) ->
  (forall t, In (ActTempo t) acts -> 0 < t)%Q ->
  cinv (claviers L) (generate v plp L acts).
Proof.
  intros Hn Ht. unfold generate.
  assert (H0 : cinv (claviers L) (set_gen (initGen plp) L)).
  { exists []. rewrite app_nil_r. repeat split; try exact I.
    - rewrite app_nil_r. destruct (last_opt (claviers L)); exact I.
    - discriminate. }
  revert H0. generalize (set_gen (initGen plp) L) as L0.
  induction acts as [|a acts IH]; intros L0 H0; simpl; [exact H0|].
  apply IH.
  - intros n Hin. apply Hn. right. exact Hin.
  - intros t Hin. apply Ht. right. exact Hin.
  - destruct a as [n|t]; simpl.
    + apply registerNote_cinv; [apply Hn; left; reflexivity | exact H0].
    + destruct H0 as (added & HL & Hinc & Hdiff & Hlast & Hempty & _).
      exists added. repeat split; try assumption. apply Ht. left. reflexivity.
Qed.

(** ** C8: horizontal layout of the visual notes *)

(** C8. For a positive [playingVelocity] and an action list whose tempo
    changes are positive (the [TempoChange] type of the data model), the
    visual notes produced by [setMusicActions], from any prior state of
    the instance, are laid out left to right: each note's [x] equals the
    previous note's [x] plus the previous note's duration in seconds times
    the velocity, so [x] never decreases; nothing of the playback state
    ([dx], elapsed time) enters the computation. *)
Theorem visualNotes_x_chain (acts : list MusicAction) (s : Score) :
  (0 < sc_velocity s)%Q ->
  (forall t, In (ActTempo t) acts -> 0 < t)%Q ->
  adjacent (xstep (sc_velocity s))
    (map xd (skipn (length (visualNotes (layout s)))
                   (visualNotes (layout (setMusicActions acts s))))).
Proof.
  intros Hv Ht. rewrite setMusicActions_layout.
  destruct (generate_xinv (sc_velocity s) (playerLinePos s) (layout s) acts)
    as (S & HL & HS & _); [lra | exact Ht |].
  rewrite <- skipn_map, HL.
  replace (length (visualNotes (layout s))) with (length (map xd (visualNotes (layout s))))
    by apply length_map.
  rewrite skipn_length_app. exact HS.
Qed.

Lemma visualNotes_x_chain_witness :
  let acts := [ActNote (mkNote 0 4 8); ActTempo 60; ActNote (mkNote 5 1 24)] in
  let s := newScore 200 800 in
  (0 < sc_velocity s)%Q /\
  adjacent (xstep (sc_velocity s))
    (map xd (skipn (length (visualNotes (layout s)))
                   (visualNotes (layout (setMusicActions acts s))))).
Proof.
  cbv zeta. split; [reflexivity|].
  apply visualNotes_x_chain; [reflexivity|].
  intros t Hin. simpl in Hin.
  destruct Hin as [H|[H|[H|[]]]]; try discriminate. injection H as <-. reflexivity.
Defined.

(** ** C9: the clef regions *)

(** C9. For an action list whose notes have positive integer durations and
    whose tempo changes are positive, [setMusicActions] appends to the
    clef list [this.claviers] a run of regions whose activation times
    strictly increase and in which no two neighbours (nor the first one and
    the last region already present) share a clef. On a fresh instance the
    prior list is empty, so this is the whole list. *)
Theorem claviers_ordered (acts : list MusicAction) (s : Score) :
  (forall n, In (ActNote n) acts -> 1 <= duration n) ->
  (forall t, In (ActTempo t) acts -> 0 < t)%Q ->
  exists added,
    claviers (layout (setMusicActions acts s)) = claviers (layout s) ++ added /\
    adjacent time_lt added /\
    adjacent clef_differs (optToList (last_opt (claviers (layout s))) ++ added).
Proof.
  intros Hn Ht. rewrite setMusicActions_layout.
  destruct (generate_cinv (sc_velocity s) (playerLinePos s) (layout s) acts Hn Ht)
    as (added & HL & Hinc & Hdiff & _).
  exists added. repeat split; assumption.
Qed.

Lemma claviers_ordered_witness :
  let acts := [ActNote (mkNote 0 4 8); ActTempo 90; ActNote (mkNote 5 1 24);
               ActNote (mkNote 7 4 16)] in
  let s := newScore 200 800 in
  exists added,
    claviers (layout (setMusicActions acts s)) = claviers (layout s) ++ added /\
    adjacent time_lt added /\
    adjacent clef_differs (optToList (last_opt (claviers (layout s))) ++ added).
Proof.
  cbv zeta. apply claviers_ordered.
  - intros n Hin. simpl in Hin.
    destruct Hin as [H|[H|[H|[H|[]]]]]; try discriminate; injection H as <-; simpl; lia.
  - intros t Hin. simpl in Hin.
    destruct Hin as [H|[H|[H|[H|[]]]]]; try discriminate. injection H as <-. reflexivity.
Defined.

(** ** C10: tempo scaling *)

Lemma chainXs_snd (v x : Q) (ds : list Q) : map snd (chainXs v x ds) = ds.
Proof.
  revert x. induction ds as [|d ds IH]; intros x; simpl; [reflexivity|]. rewrite IH. reflexivity.
Qed.

(** ** C7: vertical staff position *)

(** C7 (counterexample). The formula puts C1 under the bass clef at
    [0 + (-4 + (1 - 1) * 7) = -4], and so does the code: not at -8. *)
Lemma getNoteVerticalPos_C1_bass :
  getNoteVerticalPos (mkNote 0 1 16) ClavF = -4 /\
  getNoteVerticalPos (mkNote 0 1 16) ClavF <> -8.
Proof. split; [reflexivity | discriminate]. Qed.

(** C7 (amended). For a pitch class in 0..11, [getNoteVerticalPos] is the
    base table entry plus [-2 + (octave - 3) * 7] under the treble (g) clef
    and plus [-4 + (octave - 1) * 7] under the bass (f) clef; in particular
    C3 in treble is at -2 and C1 in bass at -4; and the result depends on
    the pitch class, the octave and the clef only. *)
Theorem getNoteVerticalPos_formula (p o d : Z) :
  0 <= p <= 11 ->
  getNoteVerticalPos (mkNote p o d) ClavG = nth (Z.to_nat p) spec_baseTable 0 + (-2 + (o - 3) * 7) /\
  getNoteVerticalPos (mkNote p o d) ClavF = nth (Z.to_nat p) spec_baseTable 0 + (-4 + (o - 1) * 7) /\
  getNoteVerticalPos (mkNote 0 3 d) ClavG = -2 /\
  getNoteVerticalPos (mkNote 0 1 d) ClavF = -4 /\
  (forall d' c, getNoteVerticalPos (mkNote p o d) c = getNoteVerticalPos (mkNote p o d') c).
Proof.
  intros Hp. split; [reflexivity|]. split; [reflexivity|].
  split; [reflexivity|]. split; [reflexivity|]. intros d' [|]; reflexivity.
Qed.

Lemma getNoteVerticalPos_formula_witness :
  0 <= 9 <= 11 /\
  getNoteVerticalPos (mkNote 9 4 16) ClavG = nth (Z.to_nat 9) spec_baseTable 0 + (-2 + (4 - 3) * 7) /\
  getNoteVerticalPos (mkNote 9 4 16) ClavF = nth (Z.to_nat 9) spec_baseTable 0 + (-4 + (4 - 1) * 7) /\
  getNoteVerticalPos (mkNote 0 3 16) ClavG = -2 /\
  getNoteVerticalPos (mkNote 0 1 16) ClavF = -4 /\
  (forall d' c, getNoteVerticalPos (mkNote 9 4 16) c = getNoteVerticalPos (mkNote 9 4 d') c).
Proof.
  split; [lia|]. apply (getNoteVerticalPos_formula 9 4 16). lia.
Defined.

(** ** C6: beam direction *)

Lemma noteVerticalPos_bounds (k : nat) : 0 <= nth k noteVerticalPos 0 <= 6.
Proof.
  destruct (nth_in_or_default k noteVerticalPos 0) as [Hin | ->]; [|lia].
  set (x := nth k noteVerticalPos 0) in *. unfold noteVerticalPos in Hin. simpl in Hin. repeat (destruct Hin as [<-|Hin]; [lia|]). contradiction.
Qed.

Lemma verticalPos_range (n : Note) :
  validNote n -> -100 < getNoteVerticalPos n (clavierOf n) < 100.
Proof.
  intros [_ Ho]. pose proof (noteVerticalPos_bounds (Z.to_nat (note n))).
  unfold getNoteVerticalPos. destruct (clavierOf n); lia.
Qed.

Lemma scanExtremes_fold (vps : list Z) (i : nat) (major minor : Z) (majorID minorID : nat) :
  let '(major', minor', _, _) := scanExtremes vps i major minor majorID minorID in
  major' = fold_left Z.max vps major /\ minor' = fold_left Z.min vps minor.
Proof.
  revert i major minor majorID minorID.
  induction vps as [|v vps IH]; intros i major minor majorID minorID; simpl; [split; reflexivity|].
  destruct (Z.ltb_spec major v) as [H1|H1]; destruct (Z.ltb_spec v minor) as [H2|H2];
  match goal with
  | |- context [scanExtremes vps (S i) ?M ?m ?MI ?mI] =>
      specialize (IH (S i) M m MI mI);
      destruct (scanExtremes vps (S i) M m MI mI) as [[[a b] c] e]
  end;
  destruct IH as [-> ->]; split; f_equal; lia.
Qed.

Lemma fold_max_ge (l : list Z) (a : Z) : a <= fold_left Z.max l a.
Proof.
  revert a. induction l as [|b l IH]; intros a; simpl; [lia|].
  specialize (IH (Z.max a b)). lia.
Qed.

Lemma fold_min_le (l : list Z) (a : Z) : fold_left Z.min l a <= a.
Proof.
  revert a. induction l as [|b l IH]; intros a; simpl; [lia|].
  specialize (IH (Z.min a b)). lia.
Qed.

Lemma fold_max_shift (l : list Z) (a b : Z) :
  fold_left Z.max l (Z.max a b) = Z.max a (fold_left Z.max l b).
Proof.
  revert a b. induction l as [|c l IH]; intros a b; simpl; [reflexivity|].
  rewrite <- Z.max_assoc, IH. reflexivity.
Qed.

Lemma fold_min_shift (l : list Z) (a b : Z) :
  fold_left Z.min l (Z.min a b) = Z.min a (fold_left Z.min l b).
Proof.
  revert a b. induction l as [|c l IH]; intros a b; simpl; [reflexivity|].
  rewrite <- Z.min_assoc, IH. reflexivity.
Qed.

(** C6. When a beam group of at least two notes (of the documented pitch
    and octave ranges) is closed, [createQuaverSection] points it Down
    exactly when its highest staff position [majorPos] is above 3 and
    [distFrom4 majorPos >= distFrom4 minorPos], [minorPos] being its lowest
    position; otherwise Up. *)
Theorem sectionDirection_spec (ns : list Note) :
  (2 <= length ns)%nat -> Forall validNote ns ->
  let vps := map (fun n => getNoteVerticalPos n (clavierOf n)) ns in
  sectionDirection vps = Down <->
  (3 < highest vps /\ distFrom4 (lowest vps) <= distFrom4 (highest vps)).
Proof.
  intros Hlen Hvalid. cbv zeta.
  destruct ns as [|n ns]; [simpl in Hlen; lia|].
  inversion Hvalid as [|? ? Hn _]; subst.
  pose proof (verticalPos_range n Hn) as Hr.
  simpl map.
  set (v0 := getNoteVerticalPos n (clavierOf n)) in *.
  set (vs := map (fun n => getNoteVerticalPos n (clavierOf n)) ns).
  unfold sectionDirection, extremes.
  pose proof (scanExtremes_fold (v0 :: vs) 0 (-100) 100 0 0) as Hs.
  destruct (scanExtremes (v0 :: vs) 0 (-100) 100 0 0) as [[[major minor] mi] mn].
  destruct Hs as [Hmaj Hmin]. simpl in Hmaj, Hmin.
  rewrite fold_max_shift in Hmaj. rewrite fold_min_shift in Hmin.
  pose proof (fold_max_ge vs v0). pose proof (fold_min_le vs v0).
  assert (Ehi : major = highest (v0 :: vs)) by (simpl; lia).
  assert (Elo : minor = lowest (v0 :: vs)) by (simpl; lia).
  rewrite <- Ehi, <- Elo. unfold directionOf, distFrom4.
  destruct (3 <? major) eqn:E1; destruct (3 <? minor) eqn:E2;
  destruct (_ <=? _) eqn:E3; cbv beta iota delta [andb];
  rewrite ?Z.ltb_lt, ?Z.ltb_ge, ?Z.leb_le, ?Z.leb_gt in *;
  split; intros; try discriminate; try lia; try reflexivity.
Qed.

Lemma sectionDirection_spec_witness :
  let ns := [mkNote 0 5 8; mkNote 4 4 8; mkNote 2 3 8] in
  (2 <= length ns)%nat /\ Forall validNote ns /\
  (let vps := map (fun n => getNoteVerticalPos n (clavierOf n)) ns in
   sectionDirection vps = Down <->
   (3 < highest vps /\ distFrom4 (lowest vps) <= distFrom4 (highest vps))).
Proof.
  cbv zeta. split; [simpl; lia|]. split.
  - repeat constructor; simpl; lia.
  - apply sectionDirection_spec; [simpl; lia|]. repeat constructor; simpl; lia.
Defined.

(** ** C5: glyph variant *)

(** C5 (counterexample). Staff positions 3 and 4 are both not above 4, yet
    [createVisualNotes] draws their quarter notes with different glyph
    variants: the choice is not made by [verticalPos > 4]. *)
Lemma glyph_variant_differs_at_3_and_4 :
  let n3 := mkNote 9 3 16 in
  let n4 := mkNote 11 3 16 in
  getNoteVerticalPos n3 (clavierOf n3) = 3 /\
  getNoteVerticalPos n4 (clavierOf n4) = 4 /\
  map vn_img (snd (createVisualNotesWith 120 n3)) <>
  map vn_img (snd (createVisualNotesWith 120 n4)).
Proof. cbv zeta. split; [reflexivity|]. split; [reflexivity|]. vm_compute. discriminate. Qed.

(** C5 (amended). Each symbol of a note is drawn with the second glyph
    variant of its row of [noteSymbols] when the note's staff position is
    at least 4 ([verticalPos > 3]), and with the first variant otherwise. *)
Theorem createVisualNotes_variant (t : Q) (n : Note) :
  let verticalPos := getNoteVerticalPos n (clavierOf n) in
  map vn_img (snd (createVisualNotesWith t n)) =
  map (fun id =>
         let row := nth id noteSymbols (default_symbol, default_symbol) in
         ns_img (if 4 <=? verticalPos then snd row else fst row))
      (symbolIds (duration n)).
Proof.
  cbv zeta. unfold createVisualNotesWith. simpl. rewrite map_map.
  apply map_ext. intros id. unfold variantOf, symbolAt. simpl.
  destruct (Z.ltb_spec 3 (getNoteVerticalPos n (clavierOf n)));
  destruct (Z.leb_spec 4 (getNoteVerticalPos n (clavierOf n))); try lia; reflexivity.
Qed.

(** ** C4: end of playback *)

Lemma checkNoteVisualization_status (s : Score) :
  status (view (checkNoteVisualization s)) = status (view s).
Proof.
  unfold checkNoteVisualization. cbv zeta.
  destruct (_ && _); reflexivity.
Qed.

Lemma update_status (now : Q) (s : Score) :
  status (view (update now s)) = status (view s).
Proof.
  unfold update. cbv zeta. simpl.
  unfold checkQuaverSection, checkNoteLine. simpl.
  unfold checkClavier. destruct (_ && _); simpl;
  rewrite checkNoteVisualization_status; reflexivity.
Qed.

(** C4. The per-tick [update()] never changes the playback status: the
    auto-stop test of [checkNoteVisualization] compares [this.noteFirst],
    a property that is never assigned, with the number of notes. In a run
    of one quarter note where the note has scrolled past the left edge
    ([firstNote = lastNote = 1 = number of notes]) playback stays
    [Playing]. *)
Theorem update_never_stops :
  (forall now s, status (view (update now s)) = status (view s)) /\
  let s := update 20000 (update 10000 (start 0
             (setMusicActions [ActNote (mkNote 0 4 16)] (newScore 200 800)))) in
  firstNote (view s) = 1%nat /\ lastNote (view s) = 1%nat /\
  length (visualNotes (layout s)) = 1%nat /\ status (view s) = Playing /\
  status (view (update 30000 s)) = Playing.
Proof.
  split; [exact update_status|]. vm_compute. repeat split.
Qed.

(** ** C3: stopping *)

(** C3. [stop()] calls [reset()], which only zeroes [timeSinceStart] and
    [lastTime]: the scroll offset [dx], the note cursors and the clef index
    [lastClavier] keep their values. After a stop the score goes on
    scrolling from where it was, while the clef timeline, read against
    [timeSinceStart] by [checkClavier], starts again from 0. Three quarter
    notes (clefs G, F, G; clef changes at 500 ms and 1000 ms) are played
    for 700 ms and stopped: the cursors are not rewound and [dx] stays at
    140. Restarting and playing until [dx = 250] still shows the bass clef,
    while a run without the stop shows the treble clef at the same
    scroll offset. *)
Theorem stop_desyncs_clefs :
  let acts := [ActNote (mkNote 0 4 16); ActNote (mkNote 0 2 16); ActNote (mkNote 0 4 16)] in
  let s0 := setMusicActions acts (newScore 200 800) in
  let sA := update 700 (update 600 (start 0 s0)) in
  let sS := stop sA in
  let sB := update 1350 (update 1300 (update 900 (start 800 sS))) in
  let sU := update 1250 (update 1200 sA) in
  ~ cursors_rewound (view sS) /\ lastNote (view sS) = 3%nat /\
  timeSinceStart (view sS) = 0%Q /\ (dx (view sS) == 140)%Q /\
  drawnClavier sA = Some ClavF /\
  (dx (view sB) == 250)%Q /\ (dx (view sU) == 250)%Q /\
  drawnClavier sB = Some ClavF /\ drawnClavier sU = Some ClavG.
Proof.
  vm_compute. split; [intros (_ & _ & H & _); discriminate|]. repeat split.
Qed.

(** ** C2: a pair of eighth notes *)

(** C2. Two notes of duration 8 in the treble clef (E4 twice) submitted to
    a fresh instance open a beam group that is never closed:
    [setMusicActions] stops after the last action without closing the open
    group, so no beam ([QuaverSection]) and no stem ([NoteLine]) is
    produced, while the group of two notes is still pending in [this.gen]. *)
Theorem eighth_pair_not_beamed :
  let s := setMusicActions [ActNote (mkNote 4 4 8); ActNote (mkNote 4 4 8)] (newScore 200 800) in
  clavierOf (mkNote 4 4 8) = ClavG /\
  quaverSections (layout s) = [] /\ noteLines (layout s) = [] /\
  length (visualNotes (layout s)) = 2%nat /\
  quaverSection (gen (layout s)) = true /\
  quaverSectionElements (gen (layout s)) = [0; 1]%nat.
Proof. vm_compute. repeat split. Qed.

(** ** C1: duration decomposition *)

(** C1. A note of 128 sixty-fourths (two whole notes) is decomposed into the
    seven symbols from the whole note down to the sixty-fourth note, whose
    durations add up to 127, not 128: the single pass over the symbol table
    leaves a remainder of 1 undrawn. *)
Theorem decompose_128 :
  decompose 128 = [64; 32; 16; 8; 4; 2; 1] /\
  fold_right Z.add 0 (decompose 128) = 127.
Proof. split; reflexivity. Qed.


Lemma decompose_below_128 (d : Z) : 1 <= d <= 127 -> decompose_ok d = true.
Proof.
  intros Hd.
  assert (Hall : forallb decompose_ok (map Z.of_nat (seq 1 127)) = true)
    by (vm_compute; reflexivity).
  rewrite forallb_forall in Hall. apply Hall.
  apply in_map_iff. exists (Z.to_nat d). split; [lia|]. apply in_seq. lia.
Qed.

(** ** Further properties of the code *)

Lemma symbolIds_nonpos (d : Z) : d <= 0 -> symbolIds d = [].
Proof.
  intros Hd. unfold symbolIds, noteFraqDuration. simpl.
  repeat match goal with
         | |- context [?a <=? ?b] =>
             replace (a <=? b) with false by (symmetry; apply Z.leb_gt; lia)
         end. reflexivity.
Qed.

Lemma decompose_large (d : Z) : 128 <= d -> decompose d = [64; 32; 16; 8; 4; 2; 1].
Proof.
  intros Hd. unfold decompose, symbolIds, noteFraqDuration. simpl.
  repeat match goal with
         | |- context [?a <=? ?b] =>
             replace (a <=? b) with true by (symmetry; apply Z.leb_le; lia)
         | |- context [?a =? ?b] =>
             replace (a =? b) with false by (symmetry; apply Z.eqb_neq; lia)
         end. reflexivity.
Qed.

Lemma decompose_sum (d : Z) :
  fold_right Z.add 0 (decompose d) = Z.max 0 (Z.min d 127).
Proof.
  destruct (Z.le_gt_cases d 0) as [H0|H0].
  - unfold decompose. rewrite symbolIds_nonpos by exact H0. simpl. lia.
  - destruct (Z.le_gt_cases d 127) as [H1|H1].
    + assert (H : decompose_ok d = true) by (apply decompose_below_128; lia).
      unfold decompose_ok in H. apply andb_prop in H as [H _].
      apply andb_prop in H as [H _]. apply andb_prop in H as [H _].
      apply Z.eqb_eq in H. rewrite H. lia.
    + rewrite decompose_large by lia. simpl. lia.
Qed.

Lemma noteDuration_fraq (id : nat) :
  (id < 7)%nat -> (nthQ noteDuration id == inject_Z (nth id noteFraqDuration 0%Z) / 32)%Q.
Proof.
  intros H. do 7 (destruct id as [|id]; [reflexivity|]). lia.
Qed.

Lemma sum_durations (tf : Q) (ids : list nat) :
  (forall id, In id ids -> (id < 7)%nat) ->
  (sumQ (map (fun id => nthQ noteDuration id * tf) ids) ==
   inject_Z (fold_right Z.add 0%Z (map (fun i => nth i noteFraqDuration 0%Z) ids)) / 32 * tf)%Q.
Proof.
  induction ids as [|id ids IH]; intros Hin; unfold sumQ in *; cbn [map fold_right].
  - unfold Qdiv. ring.
  - rewrite IH by (intros j Hj; apply Hin; right; exact Hj).
    rewrite noteDuration_fraq by (apply Hin; left; reflexivity).
    rewrite inject_Z_plus. unfold Qdiv. ring.
Qed.

(** X1: the duration classes chosen for a note sum to its duration clamped to [0, 127], and the visual notes made for it last that many 64ths of a whole note, scaled by 120/tempo. *)
Theorem createVisualNotes_total (t : Q) (n : Note) :
  fold_right Z.add 0 (decompose (duration n)) = Z.max 0 (Z.min (duration n) 127) /\
  (sumQ (map vn_duration (snd (createVisualNotesWith t n))) ==
    inject_Z (Z.max 0%Z (Z.min (duration n) 127%Z)) / 32 * (120 / t))%Q.
Proof.
  split; [apply decompose_sum|].
  rewrite createVisualNotes_durations, sum_durations by apply symbolIds_lt7.
  rewrite <- decompose_sum. reflexivity.
Qed.

(** X2: a note of duration 0 or less adds no visual note and no note time; it only updates the clef bookkeeping. *)
Theorem registerNote_nonpositive (v : Q) (L : Layout) (n : Note) :
  duration n <= 0 ->
  let L' := registerNote v L n in
  noteTime L' = noteTime L /\ visualNotes L' = visualNotes L /\
  quaverSections L' = quaverSections L /\ noteLines L' = noteLines L /\
  claviers L' = fst (pushClavier (claviers L) (clavierOf n) (time (gen L))) /\
  gen L' = gen_with_clavier (clavierOf n) (gen L).
Proof.
  intros Hd. cbv zeta. unfold registerNote, createVisualNotesWith.
  rewrite (symbolIds_nonpos _ Hd). cbv beta iota zeta.
  destruct (pushClavier _ _ _) as [cls ch]. simpl. repeat split.
Qed.

Lemma registerNote_nonpositive_witness :
  duration (mkNote 0 1 0) <= 0 /\
  (let L := generate 200 400 emptyLayout [ActNote (mkNote 0 4 16)] in
   let L' := registerNote 200 L (mkNote 0 1 0) in
  noteTime L' = noteTime L /\ visualNotes L' = visualNotes L /\
  quaverSections L' = quaverSections L /\ noteLines L' = noteLines L /\
  claviers L' = fst (pushClavier (claviers L) (clavierOf (mkNote 0 1 0)) (time (gen L))) /\
  gen L' = gen_with_clavier (clavierOf (mkNote 0 1 0)) (gen L)).
Proof.
  split; [simpl; lia|]. apply registerNote_nonpositive. simpl; lia.
Defined.

(* frames *)
Lemma createQuaverSection_noteTime (L : Layout) : noteTime (createQuaverSection L) = noteTime L.
Proof.
  unfold createQuaverSection. destruct (_ <=? _)%nat; [reflexivity|].
  destruct (extremes _) as [[[? ?] ?] ?]. reflexivity.
Qed.

Lemma closeGroup_gen (L : Layout) : gen (closeGroup L) = closeGen (gen L).
Proof.
  unfold closeGroup. simpl. destruct (createQuaverSection_frame L) as (_ & _ & ->). reflexivity.
Qed.

Lemma closeGroup_noteTime (L : Layout) : noteTime (closeGroup L) = noteTime L.
Proof. unfold closeGroup. simpl. apply createQuaverSection_noteTime. Qed.

Lemma closeGroup_durs (L : Layout) :
  map vn_duration (visualNotes (closeGroup L)) = map vn_duration (visualNotes L).
Proof.
  rewrite <- !(map_map xd snd). rewrite closeGroup_xd. reflexivity.
Qed.

Lemma closeGroup_xs (L : Layout) :
  map vn_x (visualNotes (closeGroup L)) = map vn_x (visualNotes L).
Proof.
  rewrite <- !(map_map xd fst). rewrite closeGroup_xd. reflexivity.
Qed.

Lemma closeGroup_length (L : Layout) :
  length (visualNotes (closeGroup L)) = length (visualNotes L).
Proof.
  rewrite <- (length_map xd), closeGroup_xd, length_map. reflexivity.
Qed.

Lemma sumQ_app (l1 l2 : list Q) : (sumQ (l1 ++ l2) == sumQ l1 + sumQ l2)%Q.
Proof.
  induction l1 as [|a l1 IH]; unfold sumQ in *; simpl; [ring|]. rewrite IH. ring.
Qed.

Lemma sum_seq_ext (a m : nat) (l l' : list Q) :
  (forall k, (a <= k < a + m)%nat -> nth k l 0 = nth k l' 0)%Q ->
  sumQ (map (fun k => nth k l 0%Q) (seq a m)) = sumQ (map (fun k => nth k l' 0%Q) (seq a m)).
Proof.
  intros H. f_equal. apply map_ext_in. intros k Hk. apply in_seq in Hk. apply H. lia.
Qed.

Lemma registerVisualNote_group (v : Q) (ch : bool) (L : Layout) (vn0 : VisualNote) :
  group_ok L -> group_ok (registerVisualNote v ch L vn0).
Proof.
  unfold group_ok, registerVisualNote. cbv zeta. simpl.
  set (k := length (visualNotes L)).
  set (vn := setX (gx (gen L)) vn0).
  set (d := vn_duration vn0).
  assert (Hd : vn_duration vn = d) by reflexivity.
  assert (Hnth : forall j, (j < k)%nat ->
            nth j (map vn_duration (visualNotes L ++ [vn])) 0%Q =
            nth j (map vn_duration (visualNotes L)) 0%Q).
  { intros j Hj. rewrite map_app. apply app_nth1. rewrite length_map. exact Hj. }
  assert (Hk : nth k (map vn_duration (visualNotes L ++ [vn])) 0%Q = d).
  { rewrite map_app. rewrite app_nth2; rewrite length_map; [|lia].
    subst k. rewrite Nat.sub_diag. reflexivity. }
  assert (Hlen : length (visualNotes L ++ [vn]) = S k).
  { rewrite length_app. simpl. lia. }
  (* opening from a closed state *)
  assert (Hopen : forall L2, quaverSection (gen L2) = false ->
             quaverSectionElements (gen L2) = [] -> (quaverTotalDuration (gen L2) == 0)%Q ->
             map vn_duration (visualNotes L2) = map vn_duration (visualNotes L ++ [vn]) ->
             let L3 := maybeOpenGroup d (120 / currentTempo (gen L)) k L2 in
             if quaverSection (gen L3) then
               exists a m, (0 < m)%nat /\ quaverSectionElements (gen L3) = seq a m /\
                 (a + m)%nat = length (visualNotes L3) /\
                 (quaverTotalDuration (gen L3) ==
                   sumQ (map (fun k => nth k (map vn_duration (visualNotes L3)) 0) (seq a m)))%Q
             else quaverSectionElements (gen L3) = [] /\ (quaverTotalDuration (gen L3) == 0)%Q).
  { intros L2 Hf He Ht Hds. cbv zeta. unfold maybeOpenGroup. rewrite Hf. simpl.
    destruct (Qle_bool _ _); simpl; [|rewrite Hf; split; assumption].
    exists k, 1%nat. split; [lia|]. rewrite He. split; [reflexivity|].
    split.
    - rewrite <- (length_map vn_duration), Hds, length_map, Hlen. lia.
    - rewrite Hds. unfold sumQ. simpl. rewrite Hk, Ht. ring. }
  destruct (quaverSection (gen L)) eqn:Eqs.
  - intros (a & m & Hm & He & Ham & Ht).
    destruct (Qlt_bool _ d).
    + rewrite closeGroup_gen. simpl. split; reflexivity.
    + destruct (ch || _).
      * apply Hopen.
        -- rewrite closeGroup_gen. reflexivity.
        -- rewrite closeGroup_gen. reflexivity.
        -- rewrite closeGroup_gen. reflexivity.
        -- rewrite closeGroup_durs. reflexivity.
      * unfold maybeOpenGroup. simpl. rewrite ?Eqs. simpl.
        exists a, (S m). split; [lia|]. split.
        { rewrite He, seq_S. do 2 f_equal. lia. }
        split; [rewrite Hlen; lia|].
        rewrite seq_S, map_app, sumQ_app.
        rewrite (sum_seq_ext a m _ (map vn_duration (visualNotes L)))
          by (intros j Hj; apply Hnth; lia).
        rewrite Ht. unfold sumQ at 3. simpl. replace (a + m)%nat with k by lia.
        rewrite Hk. ring.
  - intros [He Ht]. apply Hopen; simpl; assumption || reflexivity.
Qed.

Lemma registerNote_group (v : Q) (L : Layout) (n : Note) :
  group_ok L -> group_ok (registerNote v L n).
Proof.
  intros H. unfold registerNote.
  destruct (createVisualNotesWith _ _) as [c vns].
  destruct (pushClavier _ _ _) as [cls ch].
  assert (H1 : group_ok (mkLayout (noteTime L) (visualNotes L) (quaverSections L) (noteLines L)
                                   cls (gen_with_clavier c (gen L)))) by exact H.
  revert H1. generalize (mkLayout (noteTime L) (visualNotes L) (quaverSections L) (noteLines L)
                                   cls (gen_with_clavier c (gen L))) as L1.
  induction vns as [|vn vns IH]; intros L1 H1; simpl; [exact H1|].
  apply IH. apply registerVisualNote_group. exact H1.
Qed.

Lemma generate_group (v plp : Q) (L : Layout) (acts : list MusicAction) :
  group_ok (generate v plp L acts).
Proof.
  unfold generate.
  assert (H0 : group_ok (set_gen (initGen plp) L)) by (split; reflexivity).
  revert H0. generalize (set_gen (initGen plp) L) as L0.
  induction acts as [|a acts IH]; intros L0 H0; simpl; [exact H0|].
  apply IH. destruct a as [n|t]; simpl.
  - apply registerNote_group. exact H0.
  - exact H0.
Qed.

(** X4: after [setMusicActions], the open beam group is empty with total 0, or holds the indices of the last visual notes, in order, with their summed duration as total. *)
Theorem setMusicActions_group (acts : list MusicAction) (s : Score) :
  group_ok (layout (setMusicActions acts s)).
Proof. rewrite setMusicActions_layout. apply generate_group. Qed.

(* timeline *)
Lemma skipn_app_le {A} (n : nat) (l1 l2 : list A) :
  (n <= length l1)%nat -> skipn n (l1 ++ l2) = skipn n l1 ++ l2.
Proof. intros H. rewrite skipn_app. replace (n - length l1)%nat with 0%nat by lia. reflexivity. Qed.

Lemma registerVisualNote_noteTime (v : Q) (ch : bool) (L : Layout) (vn0 : VisualNote) :
  noteTime (registerVisualNote v ch L vn0) = noteTime L ++ [time (gen L)].
Proof.
  unfold registerVisualNote; cbv zeta.
  repeat match goal with
         | |- context [if ?c then _ else _] => destruct c
         end;
  unfold maybeOpenGroup; simpl;
  repeat match goal with
         | |- context [if ?c then _ else _] => destruct c
         end; simpl; rewrite ?closeGroup_noteTime, ?createQuaverSection_noteTime; reflexivity.
Qed.

Lemma registerVisualNote_tinv (v plp : Q) (n0 t0 : nat) (ch : bool) (L : Layout) (vn0 : VisualNote) :
  tinv v plp n0 t0 L -> tinv v plp n0 t0 (registerVisualNote v ch L vn0).
Proof.
  intros (Hn & Ht & HF & Hg).
  destruct (registerVisualNote_frame v ch L vn0) as (A1 & _ & A3). cbv zeta in A1, A3.
  pose proof (registerVisualNote_noteTime v ch L vn0) as A2.
  unfold gcore in A3. injection A3 as _ E2 E3.
  assert (Hx : map vn_x (visualNotes (registerVisualNote v ch L vn0)) =
               map vn_x (visualNotes L) ++ [gx (gen L)]).
  { rewrite <- !(map_map xd fst), A1, map_app. reflexivity. }
  assert (Hl : length (visualNotes (registerVisualNote v ch L vn0)) = S (length (visualNotes L))).
  { rewrite <- (length_map vn_x), Hx, length_app, length_map. simpl. lia. }
  split; [lia|]. split; [rewrite A2, length_app; simpl; lia|]. split.
  - rewrite Hx, A2, !skipn_app_le by (rewrite ?length_map; lia).
    apply Forall2_app; [exact HF|]. constructor; [exact Hg | constructor].
  - rewrite E2, E3, Hg. set (d := vn_duration vn0). field.
Qed.

Lemma registerNote_tinv (v plp : Q) (n0 t0 : nat) (L : Layout) (n : Note) :
  tinv v plp n0 t0 L -> tinv v plp n0 t0 (registerNote v L n).
Proof.
  intros H. unfold registerNote.
  destruct (createVisualNotesWith _ _) as [c vns].
  destruct (pushClavier _ _ _) as [cls ch].
  assert (H1 : tinv v plp n0 t0 (mkLayout (noteTime L) (visualNotes L) (quaverSections L) (noteLines L)
                                   cls (gen_with_clavier c (gen L)))) by exact H.
  revert H1. generalize (mkLayout (noteTime L) (visualNotes L) (quaverSections L) (noteLines L)
                                   cls (gen_with_clavier c (gen L))) as L1.
  induction vns as [|vn vns IH]; intros L1 H1; simpl; [exact H1|].
  apply IH. apply registerVisualNote_tinv. exact H1.
Qed.

Lemma generate_tinv (v plp : Q) (L : Layout) (acts : list MusicAction) :
  tinv v plp (length (visualNotes L)) (length (noteTime L)) (generate v plp L acts).
Proof.
  unfold generate.
  assert (H0 : tinv v plp (length (visualNotes L)) (length (noteTime L)) (set_gen (initGen plp) L)).
  { split; [simpl; lia|]. split; [simpl; lia|]. split.
    - simpl. rewrite <- (length_map vn_x), !skipn_all. constructor.
    - simpl. field. }
  revert H0. generalize (set_gen (initGen plp) L) as L0.
  induction acts as [|a acts IH]; intros L0 H0; simpl; [exact H0|].
  apply IH. destruct a as [n|t]; simpl.
  - apply registerNote_tinv. exact H0.
  - destruct H0 as (? & ? & ? & ?). split; [assumption|]. split; [assumption|]. split; assumption.
Qed.

(** X3: each visual note added by [setMusicActions] sits at [playerLinePos + velocity * t / 1000], where [t] is its note time in milliseconds. *)
Theorem setMusicActions_timeline (acts : list MusicAction) (s : Score) :
  let L := layout s in
  let L' := layout (setMusicActions acts s) in
  Forall2 (fun x t => x == playerLinePos s + sc_velocity s * t / 1000)%Q
    (skipn (length (visualNotes L)) (map vn_x (visualNotes L')))
    (skipn (length (noteTime L)) (noteTime L')).
Proof.
  cbv zeta. rewrite setMusicActions_layout.
  apply generate_tinv.
Qed.

Lemma is_prefix_app {A} (p l s : list A) : is_prefix p l -> is_prefix p (l ++ s).
Proof. intros [t ->]. exists (t ++ s). symmetry. apply app_assoc. Qed.

Lemma update_nth_app_r {A} (f : A -> A) (P S : list A) (k : nat) :
  (length P <= k)%nat -> update_nth f k (P ++ S) = P ++ update_nth f (k - length P) S.
Proof.
  revert k. induction P as [|a P IH]; intros k Hk; simpl.
  - rewrite Nat.sub_0_r. reflexivity.
  - destruct k as [|k]; [simpl in Hk; lia|]. simpl. rewrite IH by (simpl in Hk; lia). reflexivity.
Qed.

Lemma fold_update_nth_prefix {A} (f : A -> A) (ks : list nat) (P l : list A) :
  is_prefix P l -> Forall (fun k => length P <= k)%nat ks ->
  is_prefix P (fold_left (fun vs k => update_nth f k vs) ks l).
Proof.
  revert l. induction ks as [|k ks IH]; intros l [S ->] Hks; simpl; [exists S; reflexivity|].
  inversion Hks as [|? ? Hk Hks']; subst.
  apply IH; [|exact Hks']. rewrite update_nth_app_r by exact Hk. eexists; reflexivity.
Qed.

Lemma createQuaverSection_extends (L0 L : Layout) :
  einv L0 L -> extends L0 (createQuaverSection L).
Proof.
  intros ((H1 & H2 & H3 & H4 & H5) & Hels). unfold createQuaverSection.
  destruct (_ <=? _)%nat; [repeat split; assumption|].
  destruct (extremes _) as [[[? ?] ?] ?]. simpl.
  split; [exact H1|]. split; [apply fold_update_nth_prefix; assumption|].
  split; [apply is_prefix_app; exact H3|]. split; [apply is_prefix_app; exact H4|]. exact H5.
Qed.

Lemma closeGroup_einv (L0 L : Layout) : einv L0 L -> einv L0 (closeGroup L).
Proof.
  intros H. split.
  - unfold closeGroup. destruct (createQuaverSection_extends L0 L H) as (A & B & C & D & E).
    repeat split; assumption.
  - rewrite closeGroup_gen. constructor.
Qed.

Lemma maybeOpenGroup_einv (L0 L : Layout) (d tf : Q) (k : nat) :
  (length (visualNotes L0) <= k)%nat -> einv L0 L -> einv L0 (maybeOpenGroup d tf k L).
Proof.
  intros Hk [HE Hels]. unfold maybeOpenGroup. destruct (_ && _); [|split; assumption].
  split; [exact HE|]. simpl. apply Forall_app. split; [exact Hels|]. constructor; [exact Hk|constructor].
Qed.

Lemma registerVisualNote_einv (v : Q) (ch : bool) (L0 L : Layout) (vn0 : VisualNote) :
  einv L0 L -> einv L0 (registerVisualNote v ch L vn0).
Proof.
  intros [(H1 & H2 & H3 & H4 & H5) Hels].
  assert (Hk : (length (visualNotes L0) <= length (visualNotes L))%nat).
  { destruct H2 as [S ->]. rewrite length_app. lia. }
  assert (HL1 : forall g, Forall (fun k => length (visualNotes L0) <= k)%nat (quaverSectionElements g) ->
    einv L0 (mkLayout (noteTime L ++ [time (gen L)]) (visualNotes L ++ [setX (gx (gen L)) vn0])
                      (quaverSections L) (noteLines L) (claviers L) g)).
  { intros g Hg. split; [|exact Hg]. repeat split; try apply is_prefix_app; assumption. }
  unfold registerVisualNote. cbv zeta.
  destruct (quaverSection _) eqn:Eqs.
  - destruct (Qlt_bool _ _).
    + apply closeGroup_einv, HL1. exact Hels.
    + destruct (_ || _).
      * apply maybeOpenGroup_einv; [exact Hk|]. apply closeGroup_einv, HL1. exact Hels.
      * apply maybeOpenGroup_einv; [exact Hk|].
        apply HL1. simpl. apply Forall_app. split; [exact Hels|]. constructor; [exact Hk|constructor].
  - apply maybeOpenGroup_einv; [exact Hk|]. apply HL1. exact Hels.
Qed.

Lemma pushClavier_prefix (cls : list ClavierEntry) (c : Clavier) (t : Q) :
  is_prefix cls (fst (pushClavier cls c t)).
Proof.
  unfold pushClavier. pose proof (rev_last_opt cls) as Hr.
  destruct (rev cls) as [|l r].
  - rewrite Hr. eexists; reflexivity.
  - destruct (negb _); simpl; eexists; [reflexivity|]. symmetry. apply app_nil_r.
Qed.

Lemma registerNote_einv (v : Q) (L0 L : Layout) (n : Note) :
  einv L0 L -> einv L0 (registerNote v L n).
Proof.
  intros [(H1 & H2 & H3 & H4 & H5) Hels]. unfold registerNote.
  destruct (createVisualNotesWith _ _) as [c vns].
  pose proof (pushClavier_prefix (claviers L) c (time (gen_with_clavier c (gen L)))) as Hp.
  destruct (pushClavier _ _ _) as [cls ch]. simpl in Hp.
  assert (H0 : einv L0 (mkLayout (noteTime L) (visualNotes L) (quaverSections L) (noteLines L)
                                   cls (gen_with_clavier c (gen L)))).
  { split; [|exact Hels]. repeat split; try assumption.
    destruct H5 as [S HS], Hp as [T HT]. exists (S ++ T). rewrite HT, HS, app_assoc. reflexivity. }
  revert H0. generalize (mkLayout (noteTime L) (visualNotes L) (quaverSections L) (noteLines L)
                                   cls (gen_with_clavier c (gen L))) as L1.
  induction vns as [|vn vns IH]; intros L1 H1'; simpl; [exact H1'|].
  apply IH. apply registerVisualNote_einv. exact H1'.
Qed.

Lemma generate_extends (v plp : Q) (L : Layout) (acts : list MusicAction) :
  extends L (generate v plp L acts).
Proof.
  unfold generate.
  assert (H0 : einv L (set_gen (initGen plp) L)).
  { split; [|constructor]. repeat split; exists []; symmetry; apply app_nil_r. }
  enough (einv L (fold_left (registerAction v) acts (set_gen (initGen plp) L))) as [H _] by exact H.
  revert H0. generalize (set_gen (initGen plp) L) as L0.
  induction acts as [|a acts IH]; intros L0 H0; simpl; [exact H0|].
  apply IH. destruct a as [n|t]; simpl.
  - apply registerNote_einv. exact H0.
  - exact H0.
Qed.

(** X5: [setMusicActions] only appends to the arrays of the instance: every array before the call is a prefix of the same array after it. *)
Theorem setMusicActions_extends (acts : list MusicAction) (s : Score) :
  extends (layout s) (layout (setMusicActions acts s)).
Proof. rewrite setMusicActions_layout. apply generate_extends. Qed.

Lemma update_nth_nth_error {A} (f : A -> A) (k : nat) (l : list A) (j : nat) :
  nth_error (update_nth f k l) j =
  if Nat.eqb k j then option_map f (nth_error l j) else nth_error l j.
Proof.
  revert k j. induction l as [|a l IH]; intros k j.
  - destruct k, j; simpl; try reflexivity. destruct (Nat.eqb k j); reflexivity.
  - destruct k as [|k], j as [|j]; simpl; try reflexivity. apply IH.
Qed.

Lemma fold_update_nth_error {A} (f : A -> A) (ks : list nat) (l : list A) (j : nat) :
  (forall a, f (f a) = f a) ->
  nth_error (fold_left (fun vs k => update_nth f k vs) ks l) j =
  if existsb (Nat.eqb j) ks then option_map f (nth_error l j) else nth_error l j.
Proof.
  intros Hf. revert l. induction ks as [|k ks IH]; intros l; simpl; [reflexivity|].
  rewrite IH, update_nth_nth_error, (Nat.eqb_sym k j).
  destruct (Nat.eqb j k), (existsb (Nat.eqb j) ks); simpl; try reflexivity.
  destruct (nth_error l j); simpl; [rewrite Hf|]; reflexivity.
Qed.

(** X7: closing a group of two or more notes changes the symbol of exactly the group's notes to the beamed note head, and leaves the other visual notes as they are. *)
Theorem createQuaverSection_restyle (L : Layout) :
  let els := quaverSectionElements (gen L) in
  (2 <= length els)%nat ->
  forall j, nth_error (visualNotes (createQuaverSection L)) j =
    if existsb (Nat.eqb j) els
    then option_map (changeSymbol (symbolAt 7 0)) (nth_error (visualNotes L) j)
    else nth_error (visualNotes L) j.
Proof.
  cbv zeta. intros H2 j. unfold createQuaverSection.
  destruct (Nat.leb_spec (length (quaverSectionElements (gen L))) 1); [lia|].
  destruct (extremes _) as [[[? ?] ?] ?]. simpl.
  apply fold_update_nth_error. intros a. reflexivity.
Qed.

Lemma secondaryOf_y (dir : Direction) (y six : Q) (notes : list VisualNote) (i : nat) (q : QuaverSection) :
  secondaryOf dir y six notes i = Some q ->
  qs_y q = (match dir with Up => y + 4 | Down => y - 4 end)%Q /\
  qs_toY q = (match dir with Up => y + 4 | Down => y - 4 end)%Q.
Proof.
  unfold secondaryOf. cbv zeta.
  repeat match goal with
         | |- context [if ?c then _ else _] => destruct c
         end; intros H; try discriminate; injection H as <-; split; reflexivity.
Qed.

Lemma flat_map_opt_length {A B} (f : A -> option B) (l : list A) :
  (length (flat_map (fun a => optToList (f a)) l) <= length l)%nat.
Proof.
  induction l as [|a l IH]; simpl; [lia|]. rewrite length_app. destruct (f a); simpl; lia.
Qed.

(** X6: closing a group of at most one note changes nothing; closing a larger group appends one horizontal primary beam, secondary beams 4 pixels from it, and one stem per note reaching the primary beam. *)
Theorem createQuaverSection_shape (L : Layout) :
  let els := quaverSectionElements (gen L) in
  let L' := createQuaverSection L in
  ((length els <= 1)%nat -> L' = L) /\
  ((2 <= length els)%nat ->
   exists primary secondaries stems,
     quaverSections L' = quaverSections L ++ primary :: secondaries /\
     noteLines L' = noteLines L ++ stems /\
     length stems = length els /\ (length secondaries <= length els)%nat /\
     qs_y primary = qs_toY primary /\
     (exists off, (off = 4 \/ off = -4)%Q /\
        Forall (fun q => qs_y q = qs_y primary + off /\ qs_toY q = qs_y primary + off)%Q
               secondaries) /\
     Forall (fun st => nl_y st + nl_large st == qs_y primary)%Q stems /\
     noteTime L' = noteTime L /\ claviers L' = claviers L /\ gen L' = gen L /\
     length (visualNotes L') = length (visualNotes L)).
Proof.
  cbv zeta. split.
  - intros H. unfold createQuaverSection. destruct (Nat.leb_spec (length (quaverSectionElements (gen L))) 1); [reflexivity|lia].
  - intros H. unfold createQuaverSection.
    destruct (Nat.leb_spec (length (quaverSectionElements (gen L))) 1); [lia|].
    destruct (extremes _) as [[[major minor] majorID] minorID].
    set (els := quaverSectionElements (gen L)) in *.
    set (vns := fold_left _ els (visualNotes L)).
    set (notes := map (fun k => nth k vns default_vn) els).
    set (dir := sectionDirection _).
    set (primary := match dir with Up => _ | Down => _ end).
    eexists primary, _, _. split; [reflexivity|]. split; [reflexivity|].
    split; [rewrite length_map, length_seq; unfold notes; rewrite length_map; reflexivity|].
    split; [eapply Nat.le_trans; [apply flat_map_opt_length|];
            rewrite length_seq; unfold notes; rewrite length_map; lia|].
    split; [subst primary; destruct dir; reflexivity|].
    split.
    + exists (match dir with Up => 4 | Down => -4 end)%Q. split; [destruct dir; [left|right]; reflexivity|].
      apply Forall_forall. intros q Hq. apply in_flat_map in Hq. destruct Hq as (i & _ & Hq).
      destruct (secondaryOf _ _ _ _ _) eqn:E; [|destruct Hq]. destruct Hq as [<-|[]].
      apply secondaryOf_y in E. destruct E as [E1 E2]. rewrite E1, E2.
      destruct dir; split; reflexivity.
    + split.
      * apply Forall_forall. intros st Hst. apply in_map_iff in Hst. destruct Hst as (i & <- & _).
        unfold stemOf. destruct dir; simpl; ring.
      * split; [reflexivity|]. split; [reflexivity|]. split; [reflexivity|].
        simpl. rewrite <- (length_map xd). unfold vns. rewrite fold_update_nth_map by reflexivity.
        apply length_map.
Qed.

Lemma scanExtremes_idx (vps : list Z) (i : nat) (M m : Z) (MI mI : nat) :
  let '(M', m', MI', mI') := scanExtremes vps i M m MI mI in
  ((M' = M /\ MI' = MI) \/ ((i <= MI' < i + length vps)%nat /\ nth (MI' - i) vps 0 = M')) /\
  ((m' = m /\ mI' = mI) \/ ((i <= mI' < i + length vps)%nat /\ nth (mI' - i) vps 0 = m')).
Proof.
  revert i M m MI mI. induction vps as [|v vps IH]; intros i M m MI mI; simpl.
  - split; left; split; reflexivity.
  - destruct (M <? v); destruct (v <? m); simpl;
    match goal with
    | |- context [scanExtremes vps (S i) ?A ?B ?C ?D] =>
        specialize (IH (S i) A B C D); destruct (scanExtremes vps (S i) A B C D) as [[[M' m'] MI'] mI']
    end;
    destruct IH as [[[-> ->]|[Hr Hn]] [[-> ->]|[Hr' Hn']]];
    split;
    solve [ left; split; reflexivity
          | right; split; [lia | rewrite Nat.sub_diag; reflexivity]
          | right; split; [lia|];
            match goal with
            | H : nth (?x - S i) vps 0 = ?y |- _ =>
                replace (x - i)%nat with (S (x - S i)) by lia; exact H
            end ].
Qed.

Lemma fold_max_in (l : list Z) (a p : Z) : In p l -> p <= fold_left Z.max l a.
Proof.
  revert a. induction l as [|b l IH]; intros a Hin; [destruct Hin|]. simpl.
  destruct Hin as [<-|Hin].
  - pose proof (fold_max_ge l (Z.max a b)). lia.
  - apply IH. exact Hin.
Qed.

Lemma fold_min_in (l : list Z) (a p : Z) : In p l -> fold_left Z.min l a <= p.
Proof.
  revert a. induction l as [|b l IH]; intros a Hin; [destruct Hin|]. simpl.
  destruct Hin as [<-|Hin].
  - pose proof (fold_min_le l (Z.min a b)). lia.
  - apply IH. exact Hin.
Qed.

Lemma extremes_spec (vps : list Z) :
  vps <> [] -> Forall (fun p => -100 < p < 100) vps ->
  let '(M, m, MI, mI) := extremes vps in
  (MI < length vps)%nat /\ nth MI vps 0 = M /\ (mI < length vps)%nat /\ nth mI vps 0 = m /\
  Forall (fun p => m <= p <= M) vps.
Proof.
  intros Hne Hr. unfold extremes.
  pose proof (scanExtremes_fold vps 0 (-100) 100 0 0) as Hf.
  pose proof (scanExtremes_idx vps 0 (-100) 100 0 0) as Hi.
  destruct (scanExtremes vps 0 (-100) 100 0 0) as [[[M m] MI] mI].
  destruct Hf as [HM Hm].
  destruct vps as [|v0 vs]; [congruence|].
  pose proof (Forall_inv Hr) as Hv0. simpl in Hv0.
  assert (Hge : v0 <= fold_left Z.max (v0 :: vs) (-100)) by (apply fold_max_in; left; reflexivity).
  assert (Hle : fold_left Z.min (v0 :: vs) 100 <= v0) by (apply fold_min_in; left; reflexivity).
  destruct Hi as [[[E _]|[H1 H2]] [[E' _]|[H1' H2']]]; try lia.
  rewrite !Nat.sub_0_r in *.
  split; [lia|]. split; [exact H2|]. split; [lia|]. split; [exact H2'|].
  apply Forall_forall. intros p Hp. split.
  - rewrite Hm. apply fold_min_in. exact Hp.
  - rewrite HM. apply fold_max_in. exact Hp.
Qed.

Lemma nth_map_lt {A B} (f : A -> B) (l : list A) (i : nat) (d : A) (d' : B) :
  (i < length l)%nat -> nth i (map f l) d' = f (nth i l d).
Proof. intros H. rewrite (nth_indep _ d' (f d)) by (rewrite length_map; exact H). apply map_nth. Qed.

(** X8: when a group of two or more existing notes, with vertical positions strictly between -100 and 100, is closed, one stem per note is appended; they all reach at least 18 pixels up from the note when the group direction is up, and at least 24 pixels down when it is down. *)
Theorem createQuaverSection_stems (L : Layout) :
  let els := quaverSectionElements (gen L) in
  let vps := map (fun k => vn_verticalPos (nth k (visualNotes L) default_vn)) els in
  (2 <= length els)%nat ->
  Forall (fun k => k < length (visualNotes L))%nat els ->
  Forall (fun p => -100 < p < 100) vps ->
  exists stems,
    noteLines (createQuaverSection L) = noteLines L ++ stems /\
    length stems = length els /\
    (sectionDirection vps = Up -> Forall (fun st => nl_large st <= -18)%Q stems) /\
    (sectionDirection vps = Down -> Forall (fun st => 24 <= nl_large st)%Q stems).
Proof.
  cbv zeta. intros H2 Hk Hr. unfold createQuaverSection.
  destruct (Nat.leb_spec (length (quaverSectionElements (gen L))) 1); [lia|].
  set (els := quaverSectionElements (gen L)) in *.
  set (vps := map (fun k => vn_verticalPos (nth k (visualNotes L) default_vn)) els) in *.
  assert (Hvl : length vps = length els) by apply length_map.
  pose proof (extremes_spec vps) as Hx.
  destruct (extremes vps) as [[[major minor] majorID] minorID].
  destruct Hx as (HMI & HM & HmI & Hm & Hb);
    [intros E; rewrite E in Hvl; simpl in Hvl; lia | exact Hr |].
  set (vns := fold_left _ els (visualNotes L)).
  set (notes := map (fun k => nth k vns default_vn) els).
  assert (Hy : forall i, (i < length els)%nat ->
            vn_y (nth i notes default_vn) = noteY (nth i vps 0) 6).
  { intros i Hi. unfold notes, vps.
    rewrite (nth_map_lt _ _ _ 0%nat default_vn Hi).
    rewrite (nth_map_lt _ _ _ 0%nat 0 Hi).
    set (k := nth i els 0%nat).
    assert (Hin : In k els) by (apply nth_In; exact Hi).
    assert (Hkl : (k < length (visualNotes L))%nat) by (rewrite Forall_forall in Hk; apply Hk; exact Hin).
    pose proof (fold_update_nth_error (changeSymbol (symbolAt 7 0)) els (visualNotes L) k
                  (fun a => eq_refl)) as E.
    assert (Hex : existsb (Nat.eqb k) els = true).
    { apply existsb_exists. exists k. split; [exact Hin | apply Nat.eqb_refl]. }
    rewrite Hex in E. fold vns in E.
    destruct (nth_error (visualNotes L) k) as [w|] eqn:Ew;
      [|apply nth_error_None in Ew; lia].
    simpl in E. apply nth_error_nth with (d := default_vn) in E. rewrite E.
    apply nth_error_nth with (d := default_vn) in Ew. rewrite Ew. reflexivity. }
  assert (Hnl : length notes = length els) by apply length_map.
  eexists. split; [reflexivity|]. split; [rewrite length_map, length_seq; exact Hnl|].
  rewrite Forall_forall in Hb.
  assert (Hq : forall a b : Z, a <= b -> (inject_Z a <= inject_Z b)%Q)
    by (intros a b Hab; rewrite <- Zle_Qle; exact Hab).
  split; intros Hdir; fold vps in Hdir; rewrite Hdir; apply Forall_forall;
    intros st Hst; apply in_map_iff in Hst; destruct Hst as (i & <- & Hi);
    apply in_seq in Hi; rewrite Hnl in Hi; simpl; rewrite !Hy by lia;
    unfold noteY.
  - assert (Hle : nth i vps 0 <= major) by (apply Hb; apply nth_In; lia).
    apply Hq in Hle. rewrite <- HM in Hle. lra.
  - assert (Hle : minor <= nth i vps 0) by (apply Hb; apply nth_In; lia).
    apply Hq in Hle. rewrite <- Hm in Hle. lra.
Qed.

Lemma createQuaverSection_restyle_witness :
  let L := layout (setMusicActions [ActNote (mkNote 4 4 8); ActNote (mkNote 7 4 8)] (newScore 200 800)) in
  (2 <= length (quaverSectionElements (gen L)))%nat /\
  forall j, nth_error (visualNotes (createQuaverSection L)) j =
    if existsb (Nat.eqb j) (quaverSectionElements (gen L))
    then option_map (changeSymbol (symbolAt 7 0)) (nth_error (visualNotes L) j)
    else nth_error (visualNotes L) j.
Proof.
  cbv zeta. split.
  - vm_compute. lia.
  - apply createQuaverSection_restyle. vm_compute. lia.
Defined.

Lemma createQuaverSection_stems_witness :
  let L := layout (setMusicActions [ActNote (mkNote 4 4 8); ActNote (mkNote 7 4 8)] (newScore 200 800)) in
  let els := quaverSectionElements (gen L) in
  let vps := map (fun k => vn_verticalPos (nth k (visualNotes L) default_vn)) els in
  (2 <= length els)%nat /\
  Forall (fun k => k < length (visualNotes L))%nat els /\
  Forall (fun p => -100 < p < 100) vps /\
  exists stems,
    noteLines (createQuaverSection L) = noteLines L ++ stems /\
    length stems = length els /\
    (sectionDirection vps = Up -> Forall (fun st => nl_large st <= -18)%Q stems) /\
    (sectionDirection vps = Down -> Forall (fun st => 24 <= nl_large st)%Q stems).
Proof.
  cbv zeta.
  assert (H1 : (2 <= length (quaverSectionElements (gen
    (layout (setMusicActions [ActNote (mkNote 4 4 8); ActNote (mkNote 7 4 8)] (newScore 200 800))))))%nat)
    by (vm_compute; lia).
  assert (H2 : Forall (fun k => k < length (visualNotes
    (layout (setMusicActions [ActNote (mkNote 4 4 8); ActNote (mkNote 7 4 8)] (newScore 200 800)))))%nat
    (quaverSectionElements (gen
    (layout (setMusicActions [ActNote (mkNote 4 4 8); ActNote (mkNote 7 4 8)] (newScore 200 800))))))
    by (vm_compute; repeat constructor).
  assert (H3 : Forall (fun p => -100 < p < 100)
    (map (fun k => vn_verticalPos (nth k (visualNotes
       (layout (setMusicActions [ActNote (mkNote 4 4 8); ActNote (mkNote 7 4 8)] (newScore 200 800))))
       default_vn))
     (quaverSectionElements (gen
       (layout (setMusicActions [ActNote (mkNote 4 4 8); ActNote (mkNote 7 4 8)] (newScore 200 800)))))))
    by (vm_compute; repeat constructor).
  split; [exact H1|]. split; [exact H2|]. split; [exact H3|].
  apply createQuaverSection_stems; assumption.
Defined.

(* ---- frames of the per-frame checks ---- *)

Lemma checkNoteVisualization_pframe (s : Score) : pframe s (checkNoteVisualization s).
Proof. unfold checkNoteVisualization. cbv zeta. destruct (_ && _); repeat split. Qed.

Lemma checkClavier_pframe (s : Score) : pframe s (checkClavier s).
Proof. unfold checkClavier. cbv zeta. destruct (_ && _); repeat split. Qed.

Lemma checkNoteLine_pframe (s : Score) : pframe s (checkNoteLine s).
Proof. unfold checkNoteLine. repeat split. Qed.

Lemma checkQuaverSection_pframe (s : Score) : pframe s (checkQuaverSection s).
Proof. unfold checkQuaverSection. repeat split. Qed.

Lemma pframe_trans (s1 s2 s3 : Score) : pframe s1 s2 -> pframe s2 s3 -> pframe s1 s3.
Proof.
  intros (A1 & A2 & A3 & A4 & A5 & A6 & A7) (B1 & B2 & B3 & B4 & B5 & B6 & B7).
  repeat split; congruence.
Qed.

Lemma checks_pframe (s : Score) :
  pframe s (checkQuaverSection (checkNoteLine (checkClavier (checkNoteVisualization s)))).
Proof.
  eapply pframe_trans; [apply checkNoteVisualization_pframe|].
  eapply pframe_trans; [apply checkClavier_pframe|].
  eapply pframe_trans; [apply checkNoteLine_pframe|].
  apply checkQuaverSection_pframe.
Qed.

Lemma update_fields (now : Q) (s : Score) :
  let v := view s in
  let s' := update now s in
  layout s' = layout s /\ sc_velocity s' = sc_velocity s /\ canvasWidth s' = canvasWidth s /\
  dx (view s') = (dx v + sc_velocity s * (now - lastTime v) / 1000)%Q /\
  timeSinceStart (view s') = (timeSinceStart v + (now - lastTime v))%Q /\
  lastTime (view s') = now.
Proof.
  cbv zeta. unfold update. cbv zeta.
  match goal with
  | |- context [checkQuaverSection (checkNoteLine (checkClavier (checkNoteVisualization ?s0)))] =>
      destruct (checks_pframe s0) as (A1 & A2 & A3 & A4 & A5 & A6 & _)
  end.
  simpl in *. rewrite A1, A2, A3, A4, A5, A6. repeat split.
Qed.

Lemma setMusicActions_pframe_view (acts : list MusicAction) (s : Score) :
  sc_velocity (setMusicActions acts s) = sc_velocity s /\
  canvasWidth (setMusicActions acts s) = canvasWidth s /\
  dx (view (setMusicActions acts s)) = dx (view s) /\
  timeSinceStart (view (setMusicActions acts s)) = timeSinceStart (view s) /\
  lastClavier (view (setMusicActions acts s)) = lastClavier (view s).
Proof.
  unfold setMusicActions, checkQuaverSection, checkNoteLine, checkNoteVisualization.
  cbv zeta. destruct (_ && _); simpl; repeat split.
Qed.

(* ---- the scroll offset follows the clock ---- *)

(** X9: after any sequence of [update] calls, the scroll offset and the elapsed time have advanced by exactly the clock time from the last recorded time to the last call. *)
Theorem updates_telescope (s : Score) (nows : list Q) (t : Q) :
  let s' := fold_left (fun s now => update now s) (nows ++ [t]) s in
  (dx (view s') == dx (view s) + sc_velocity s * (t - lastTime (view s)) / 1000)%Q /\
  (timeSinceStart (view s') == timeSinceStart (view s) + (t - lastTime (view s)))%Q /\
  lastTime (view s') = t.
Proof.
  cbv zeta. revert s. induction nows as [|n nows IH]; intros s; cbn [fold_left app].
  - destruct (update_fields t s) as (_ & _ & _ & -> & -> & ->). repeat split; reflexivity.
  - destruct (IH (update n s)) as (B1 & B2 & B3).
    destruct (update_fields n s) as (_ & A2 & _ & A4 & A5 & A6).
    rewrite B1, B2, A2, A4, A5, A6. split; [|split; [|exact B3]]; field.
Qed.

(** X10: pausing, restarting at [t1] and updating at [t2] advances the scroll offset and the elapsed time by [t2 - t1] only: the time spent paused is skipped. *)
Theorem pause_resume_skips_pause (s : Score) (t1 t2 : Q) :
  let s' := update t2 (start t1 (pause s)) in
  (dx (view s') == dx (view s) + sc_velocity s * (t2 - t1) / 1000)%Q /\
  (timeSinceStart (view s') == timeSinceStart (view s) + (t2 - t1))%Q.
Proof.
  cbv zeta. destruct (update_fields t2 (start t1 (pause s))) as (_ & A2 & _ & A4 & A5 & _).
  rewrite A4, A5. simpl. split; reflexivity.
Qed.

(* ---- cursors ---- *)

Lemma countWhile_le {A} (p : A -> bool) (l : list A) : (countWhile p l <= length l)%nat.
Proof. induction l as [|a l IH]; simpl; [lia|]. destruct (p a); simpl; lia. Qed.

Lemma checkNoteVisualization_cursors (s : Score) :
  let v := view s in
  let v' := view (checkNoteVisualization s) in
  (firstNote v <= firstNote v' <= S (firstNote v))%nat /\
  (firstNote v' = firstNote v \/ firstNote v' <= lastNote v')%nat /\
  (lastNote v <= lastNote v' <= lastNote v + (length (visualNotes (layout s)) - lastNote v))%nat /\
  firstLine v' = firstLine v /\ lastLine v' = lastLine v /\ lastSect v' = lastSect v /\
  lastClavier v' = lastClavier v.
Proof.
  cbv zeta. unfold checkNoteVisualization. cbv zeta.
  pose proof (countWhile_le (fun vn => Qlt_bool (vn_x vn - dx (view s)) (canvasWidth s))
                (skipn (lastNote (view s)) (visualNotes (layout s)))) as Hc.
  rewrite length_skipn in Hc.
  destruct (Nat.ltb_spec (firstNote (view s))
              (lastNote (view s) + countWhile (fun vn => Qlt_bool (vn_x vn - dx (view s)) (canvasWidth s))
                (skipn (lastNote (view s)) (visualNotes (layout s))))); simpl.
  - destruct (Qlt_bool _ _); simpl; repeat split; lia.
  - repeat split; lia.
Qed.

Lemma checkClavier_cursors (s : Score) :
  let v := view s in
  let v' := view (checkClavier s) in
  (lastClavier v' = lastClavier v \/
   (lastClavier v' = S (lastClavier v) /\ S (lastClavier v) < length (claviers (layout s))))%nat /\
  firstNote v' = firstNote v /\ lastNote v' = lastNote v /\
  firstLine v' = firstLine v /\ lastLine v' = lastLine v /\ lastSect v' = lastSect v.
Proof.
  cbv zeta. unfold checkClavier. cbv zeta.
  destruct (Nat.ltb_spec (lastClavier (view s) + 1) (length (claviers (layout s)))); simpl.
  - destruct (Qlt_bool _ _); simpl; repeat split; lia.
  - repeat split; lia.
Qed.

Lemma checkNoteLine_cursors (s : Score) :
  let v := view s in
  let v' := view (checkNoteLine s) in
  (firstLine v <= firstLine v' <= S (firstLine v))%nat /\
  (firstLine v' = firstLine v \/ firstLine v' <= lastLine v')%nat /\
  (lastLine v <= lastLine v' <= lastLine v + (length (noteLines (layout s)) - lastLine v))%nat /\
  firstNote v' = firstNote v /\ lastNote v' = lastNote v /\ lastSect v' = lastSect v /\
  lastClavier v' = lastClavier v.
Proof.
  cbv zeta. unfold checkNoteLine. cbv zeta.
  pose proof (countWhile_le (fun l => Qlt_bool (nl_x l - dx (view s)) (canvasWidth s))
                (skipn (lastLine (view s)) (noteLines (layout s)))) as Hc.
  rewrite length_skipn in Hc. simpl.
  destruct (Nat.ltb_spec (firstLine (view s))
              (lastLine (view s) + countWhile (fun l => Qlt_bool (nl_x l - dx (view s)) (canvasWidth s))
                (skipn (lastLine (view s)) (noteLines (layout s))))); simpl.
  - destruct (Qlt_bool _ _); simpl; repeat split; lia.
  - repeat split; lia.
Qed.

Lemma checkQuaverSection_cursors (s : Score) :
  let v := view s in
  let v' := view (checkQuaverSection s) in
  (lastSect v <= lastSect v' <= lastSect v + 4)%nat /\
  (lastSect v' <= lastSect v + (length (quaverSections (layout s)) - lastSect v))%nat /\
  firstNote v' = firstNote v /\ lastNote v' = lastNote v /\
  firstLine v' = firstLine v /\ lastLine v' = lastLine v /\ lastClavier v' = lastClavier v.
Proof.
  cbv zeta. unfold checkQuaverSection. cbv zeta. cbn -[firstn countWhile skipn].
  set (pending := skipn (lastSect (view s)) (quaverSections (layout s))).
  pose proof (countWhile_le (fun q => Qlt_bool (qs_x q - dx (view s)) (canvasWidth s)) (firstn 4 pending)) as Hc.
  rewrite length_firstn in Hc.
  assert (Hp : length pending = (length (quaverSections (layout s)) - lastSect (view s))%nat)
    by apply length_skipn.
  repeat split; lia.
Qed.

Lemma update_cursors (now : Q) (s : Score) :
  let s1 := checkQuaverSection (checkNoteLine (checkClavier (checkNoteVisualization
              (set_view (mkView (status (view s)) (firstNote (view s)) (lastNote (view s))
                 (firstLine (view s)) (lastLine (view s)) (currentQuavSect (view s))
                 (lastSect (view s)) (lastClavier (view s)) (dx (view s))
                 (timeSinceStart (view s)) now) s)))) in
  firstNote (view (update now s)) = firstNote (view s1) /\
  lastNote (view (update now s)) = lastNote (view s1) /\
  firstLine (view (update now s)) = firstLine (view s1) /\
  lastLine (view (update now s)) = lastLine (view s1) /\
  lastSect (view (update now s)) = lastSect (view s1) /\
  lastClavier (view (update now s)) = lastClavier (view s1) /\
  layout (update now s) = layout s.
Proof.
  cbv zeta. split; [reflexivity|]. split; [reflexivity|]. split; [reflexivity|].
  split; [reflexivity|]. split; [reflexivity|]. split; [reflexivity|].
  apply update_fields.
Qed.

(** X11: one [update] moves each cursor forward only: [firstNote], [firstLine] and the clef index by at most one, the section cursor by at most four. *)
Theorem update_cursor_steps (now : Q) (s : Score) :
  let v := view s in
  let v' := view (update now s) in
  (firstNote v <= firstNote v' <= S (firstNote v))%nat /\ (lastNote v <= lastNote v')%nat /\
  (firstLine v <= firstLine v' <= S (firstLine v))%nat /\ (lastLine v <= lastLine v')%nat /\
  (lastSect v <= lastSect v' <= lastSect v + 4)%nat /\
  (lastClavier v <= lastClavier v' <= S (lastClavier v))%nat.
Proof.
  cbv zeta. destruct (update_cursors now s) as (E1 & E2 & E3 & E4 & E5 & E6 & _).
  cbv zeta in E1, E2, E3, E4, E5, E6. rewrite E1, E2, E3, E4, E5, E6.
  match goal with
  | |- context [checkNoteVisualization ?s0] =>
      set (s1 := checkNoteVisualization s0);
      pose proof (checkNoteVisualization_cursors s0) as C1; fold s1 in C1
  end.
  pose proof (checkClavier_cursors s1) as C2. set (s2 := checkClavier s1) in *.
  pose proof (checkNoteLine_cursors s2) as C3. set (s3 := checkNoteLine s2) in *.
  pose proof (checkQuaverSection_cursors s3) as C4. set (s4 := checkQuaverSection s3) in *.
  cbv zeta in C1, C2, C3, C4. simpl in C1. lia.
Qed.

Lemma is_prefix_length {A} (p l : list A) : is_prefix p l -> (length p <= length l)%nat.
Proof. intros [s ->]. rewrite length_app. lia. Qed.

Lemma checkNoteVisualization_view_ok (s : Score) : view_ok s -> view_ok (checkNoteVisualization s).
Proof.
  pose proof (checkNoteVisualization_cursors s) as C. destruct (checkNoteVisualization_pframe s) as (E & _).
  unfold view_ok. cbv zeta in *. rewrite E. lia.
Qed.

Lemma checkClavier_view_ok (s : Score) : view_ok s -> view_ok (checkClavier s).
Proof.
  pose proof (checkClavier_cursors s) as C. destruct (checkClavier_pframe s) as (E & _).
  unfold view_ok. cbv zeta in *. rewrite E. lia.
Qed.

Lemma checkNoteLine_view_ok (s : Score) : view_ok s -> view_ok (checkNoteLine s).
Proof.
  pose proof (checkNoteLine_cursors s) as C. destruct (checkNoteLine_pframe s) as (E & _).
  unfold view_ok. cbv zeta in *. rewrite E. lia.
Qed.

Lemma checkQuaverSection_view_ok (s : Score) : view_ok s -> view_ok (checkQuaverSection s).
Proof.
  pose proof (checkQuaverSection_cursors s) as C. destruct (checkQuaverSection_pframe s) as (E & _).
  unfold view_ok. cbv zeta in *. rewrite E. lia.
Qed.

Lemma update_view_ok (now : Q) (s : Score) : view_ok s -> view_ok (update now s).
Proof.
  intros H. destruct (update_cursors now s) as (E1 & E2 & E3 & E4 & E5 & E6 & E7).
  cbv zeta in *.
  match goal with
  | E1 : context [checkNoteVisualization ?s0] |- _ =>
      assert (H0 : view_ok s0) by (unfold view_ok in *; simpl; exact H);
      pose proof (checks_pframe s0) as (F & _);
      pose proof (checkQuaverSection_view_ok _ (checkNoteLine_view_ok _
                    (checkClavier_view_ok _ (checkNoteVisualization_view_ok _ H0)))) as H1
  end.
  unfold view_ok in H1 |- *. cbv zeta in H1 |- *. rewrite F in H1.
  rewrite E1, E2, E3, E4, E5, E6, E7. exact H1.
Qed.

Lemma setMusicActions_view_ok (acts : list MusicAction) (s : Score) :
  view_ok s -> view_ok (setMusicActions acts s).
Proof.
  intros H. unfold setMusicActions.
  apply checkQuaverSection_view_ok, checkNoteLine_view_ok, checkNoteVisualization_view_ok.
  destruct (generate_extends (sc_velocity s) (playerLinePos s) (layout s) acts)
    as (_ & P2 & P3 & P4 & P5).
  apply is_prefix_length in P2, P3, P4, P5.
  unfold view_ok in *. simpl. lia.
Qed.

Lemma applyOp_view_ok (s : Score) (o : Op) : view_ok s -> view_ok (applyOp s o).
Proof.
  intros H. destruct o as [acts|now| | |now]; simpl.
  - apply setMusicActions_view_ok, H.
  - unfold start. destruct (status (view s)); [|exact H|exact H].
    unfold view_ok in *. simpl. exact H.
  - unfold view_ok in *. simpl. exact H.
  - unfold view_ok in *. simpl. exact H.
  - apply update_view_ok, H.
Qed.

(** X12: on every state reachable from the constructor through the public calls, the cursors read by [draw()] stay within the generated arrays. *)
Theorem reachable_view_ok (v w : Q) (ops : list Op) :
  view_ok (fold_left applyOp ops (newScore v w)).
Proof.
  assert (H0 : view_ok (newScore v w)) by (unfold view_ok; simpl; lia).
  revert H0. generalize (newScore v w) as s.
  induction ops as [|o ops IH]; intros s H; simpl; [exact H|].
  apply IH, applyOp_view_ok, H.
Qed.

(* ---- notes meet the player line on time ---- *)

Lemma control_frame (s : Score) (o : Op) :
  isPlaybackControl o = true ->
  layout (applyOp s o) = layout s /\ sc_velocity (applyOp s o) = sc_velocity s /\
  canvasWidth (applyOp s o) = canvasWidth s /\ (synced s -> synced (applyOp s o)).
Proof.
  unfold synced. destruct o as [acts|now| | |now]; cbn [applyOp isPlaybackControl]; try discriminate; intros _.
  - unfold start. destruct (status (view s)); repeat split; auto.
  - repeat split; auto.
  - destruct (update_fields now s) as (A1 & A2 & A3 & A4 & A5 & _).
    repeat split; auto. intros Hs. rewrite A2, A4, A5, Hs. field.
Qed.

Lemma controls_frame (s : Score) (ops : list Op) :
  forallb isPlaybackControl ops = true ->
  let s' := fold_left applyOp ops s in
  layout s' = layout s /\ sc_velocity s' = sc_velocity s /\
  canvasWidth s' = canvasWidth s /\ (synced s -> synced s').
Proof.
  cbv zeta. revert s. induction ops as [|o ops IH]; intros s Hc; simpl; [repeat split; auto|].
  simpl in Hc. apply andb_prop in Hc as [Ho Hc].
  destruct (control_frame s o Ho) as (A1 & A2 & A3 & A4).
  destruct (IH (applyOp s o) Hc) as (B1 & B2 & B3 & B4).
  rewrite B1, B2, B3, A1, A2, A3. repeat split; auto.
Qed.

(** X13: on a fresh instance after [setMusicActions], whatever start, pause and update calls follow, each note is drawn on the player line exactly when the elapsed time reaches its note time. *)
Theorem playback_notes_on_time (v w : Q) (acts : list MusicAction) (ops : list Op) :
  forallb isPlaybackControl ops = true ->
  let s := fold_left applyOp ops (setMusicActions acts (newScore v w)) in
  Forall2 (fun x t => x - dx (view s) ==
                      playerLinePos s + sc_velocity s * (t - timeSinceStart (view s)) / 1000)%Q
    (map vn_x (visualNotes (layout s))) (noteTime (layout s)).
Proof.
  intros Hc. cbv zeta.
  pose proof (setMusicActions_pframe_view acts (newScore v w)) as (A2 & A3 & A4 & A5 & _).
  pose proof (setMusicActions_layout acts (newScore v w)) as AL.
  set (s0 := setMusicActions acts (newScore v w)) in *.
  destruct (controls_frame s0 ops Hc) as (B1 & B2 & B3 & B4). cbv zeta in *.
  assert (Hs0 : synced s0) by (unfold synced; rewrite A2, A4, A5; simpl; field).
  specialize (B4 Hs0). unfold synced in B4.
  set (s := fold_left applyOp ops s0) in *.
  unfold playerLinePos. rewrite B1, B2, B3, AL, A2, A3.
  pose proof (generate_tinv (sc_velocity (newScore v w)) (playerLinePos (newScore v w)) emptyLayout acts)
    as (_ & _ & HF & _).
  unfold playerLinePos in HF. simpl in HF |- *.
  revert HF. apply Forall2_impl. intros x t Hx. rewrite Hx, B4, B2, A2. simpl. field.
Qed.

(* ---- the clef drawn at the start ---- *)

Lemma registerAction_claviers_prefix (v : Q) (L : Layout) (a : MusicAction) :
  is_prefix (claviers L) (claviers (registerAction v L a)).
Proof.
  destruct a as [n|t]; simpl.
  - destruct (registerNote_frame v L n) as (_ & -> & _). apply pushClavier_prefix.
  - exists []. symmetry. apply app_nil_r.
Qed.

Lemma registerActions_claviers_prefix (v : Q) (L : Layout) (acts : list MusicAction) :
  is_prefix (claviers L) (claviers (fold_left (registerAction v) acts L)).
Proof.
  revert L. induction acts as [|a acts IH]; intros L; simpl; [exists []; symmetry; apply app_nil_r|].
  destruct (registerAction_claviers_prefix v L a) as [S HS].
  destruct (IH (registerAction v L a)) as [T HT].
  exists (S ++ T). rewrite HT, HS, app_assoc. reflexivity.
Qed.

Lemma registerActions_first_clavier (v : Q) (L : Layout) (acts : list MusicAction) :
  claviers L = [] ->
  nth_error (claviers (fold_left (registerAction v) acts L)) 0 =
  option_map (fun n => mkClavEntry (clavierOf n) 0) (firstNoteOf acts).
Proof.
  revert L. induction acts as [|a acts IH]; intros L HL; simpl; [rewrite HL; reflexivity|].
  destruct a as [n|t]; simpl.
  - destruct (registerActions_claviers_prefix v (registerNote v L n) acts) as [S ->].
    destruct (registerNote_frame v L n) as (_ & -> & _). rewrite HL. reflexivity.
  - apply IH. exact HL.
Qed.

(** X14: on a fresh instance, [drawClavier] draws the clef of the first note given to [setMusicActions], and finds no entry when there is no note. *)
Theorem setMusicActions_first_clavier (v w : Q) (acts : list MusicAction) :
  drawnClavier (setMusicActions acts (newScore v w)) = option_map clavierOf (firstNoteOf acts).
Proof.
  unfold drawnClavier. rewrite setMusicActions_layout.
  destruct (setMusicActions_pframe_view acts (newScore v w)) as (_ & _ & _ & _ & ->).
  change (lastClavier (view (newScore v w))) with O. unfold generate.
  rewrite registerActions_first_clavier by reflexivity.
  destruct (firstNoteOf acts); reflexivity.
Qed.

Lemma playback_notes_on_time_witness :
  forallb isPlaybackControl [OpStart 0; OpUpdate 16; OpPause; OpStart 100; OpUpdate 120] = true /\
  let s := fold_left applyOp [OpStart 0; OpUpdate 16; OpPause; OpStart 100; OpUpdate 120]
             (setMusicActions [ActNote (mkNote 0 4 16); ActNote (mkNote 4 4 8)] (newScore 200 800)) in
  Forall2 (fun x t => x - dx (view s) ==
                      playerLinePos s + sc_velocity s * (t - timeSinceStart (view s)) / 1000)%Q
    (map vn_x (visualNotes (layout s))) (noteTime (layout s)).
Proof.
  split; [reflexivity|]. apply playback_notes_on_time. reflexivity.
Defined.

(** ** C10: the beaming thresholds follow the tempo *)

Lemma Qle_bool_scale (a b tf : Q) :
  (0 < tf)%Q -> Qle_bool (a * tf) (b * tf) = Qle_bool a b.
Proof.
  intros H. apply Bool.eq_iff_eq_true. rewrite !Qle_bool_iff. apply Qmult_le_r. exact H.
Qed.

Lemma Qlt_bool_scale (a b tf : Q) :
  (0 < tf)%Q -> Qlt_bool (a * tf) (b * tf) = Qlt_bool a b.
Proof. intros H. unfold Qlt_bool. rewrite Qle_bool_scale by exact H. reflexivity. Qed.

Lemma Qle_bool_compat (a a' b b' : Q) : (a == a')%Q -> (b == b')%Q -> Qle_bool a b = Qle_bool a' b'.
Proof.
  intros Ha Hb. apply Bool.eq_iff_eq_true. rewrite !Qle_bool_iff, Ha, Hb. reflexivity.
Qed.

Lemma Qlt_bool_compat (a a' b b' : Q) : (a == a')%Q -> (b == b')%Q -> Qlt_bool a b = Qlt_bool a' b'.
Proof. intros Ha Hb. unfold Qlt_bool. rewrite (Qle_bool_compat b b' a a' Hb Ha). reflexivity. Qed.

Lemma tscale_close (bpm : Q) (L1 L2 : Layout) :
  tscale bpm L1 L2 -> tscale bpm (closeGroup L1) (closeGroup L2).
Proof.
  intros (T1 & T2 & Q1 & E1 & D1 & N1). unfold tscale.
  rewrite !closeGroup_gen, !closeGroup_length. simpl.
  repeat split; try assumption; ring.
Qed.

Lemma tscale_open (bpm d1 d2 : Q) (k : nat) (L1 L2 : Layout) :
  (0 < bpm)%Q -> (d1 == d2 * (120 / bpm))%Q -> tscale bpm L1 L2 ->
  tscale bpm (maybeOpenGroup d1 (120 / bpm) k L1) (maybeOpenGroup d2 (120 / 120) k L2).
Proof.
  intros Hb Hd (T1 & T2 & Q1 & E1 & D1 & N1). unfold maybeOpenGroup.
  rewrite Q1.
  rewrite (Qle_bool_compat d1 (d2 * (120 / bpm)) (nthQ noteDuration 3 * (120 / bpm))
             (nthQ noteDuration 3 * (120 / bpm)) Hd (Qeq_refl _)).
  rewrite Qle_bool_scale by (apply timeFactor_pos; exact Hb).
  rewrite (Qle_bool_compat d2 d2 (nthQ noteDuration 3 * (120 / 120)) (nthQ noteDuration 3)
             (Qeq_refl _)) by (field).
  destruct (negb _ && _); unfold tscale; simpl; rewrite ?E1; repeat split; try assumption.
  rewrite D1, Hd. ring.
Qed.

Lemma registerVisualNote_tscale (v bpm : Q) (ch : bool) (L1 L2 : Layout) (vn1 vn2 : VisualNote) :
  (0 < bpm)%Q -> (vn_duration vn1 == vn_duration vn2 * (120 / bpm))%Q ->
  tscale bpm L1 L2 ->
  tscale bpm (registerVisualNote v ch L1 vn1) (registerVisualNote v ch L2 vn2).
Proof.
  intros Hb Hd HR. pose proof HR as (T1 & T2 & Q1 & E1 & D1 & N1).
  assert (Htf : (0 < 120 / bpm)%Q) by (apply timeFactor_pos; exact Hb).
  unfold registerVisualNote. cbv zeta. simpl. rewrite T1, T2, Q1, N1.
  set (d1 := vn_duration vn1) in *. set (d2 := vn_duration vn2) in *.
  assert (HR1 : tscale bpm
    (mkLayout (noteTime L1 ++ [time (gen L1)]) (visualNotes L1 ++ [setX (gx (gen L1)) vn1])
       (quaverSections L1) (noteLines L1) (claviers L1)
       (mkGen bpm (time (gen L1) + d1 * 1000) (gx (gen L1) + d1 * v) (gclavier (gen L1))
          (quaverSection (gen L2)) (quaverTotalDuration (gen L1)) (quaverSectionElements (gen L1))))
    (mkLayout (noteTime L2 ++ [time (gen L2)]) (visualNotes L2 ++ [setX (gx (gen L2)) vn2])
       (quaverSections L2) (noteLines L2) (claviers L2)
       (mkGen 120 (time (gen L2) + d2 * 1000) (gx (gen L2) + d2 * v) (gclavier (gen L2))
          (quaverSection (gen L2)) (quaverTotalDuration (gen L2)) (quaverSectionElements (gen L2))))).
  { unfold tscale. simpl. rewrite !length_app, N1. repeat split; assumption. }
  destruct (quaverSection (gen L2)).
  - rewrite (Qlt_bool_compat (nthQ noteDuration 3 * (120 / bpm)) (nthQ noteDuration 3 * (120 / bpm))
               d1 (d2 * (120 / bpm)) (Qeq_refl _) Hd).
    rewrite Qlt_bool_scale by exact Htf.
    rewrite (Qlt_bool_compat (nthQ noteDuration 3 * (120 / 120)) (nthQ noteDuration 3) d2 d2)
      by (try field; reflexivity).
    destruct (Qlt_bool (nthQ noteDuration 3) d2).
    + apply tscale_close. exact HR1.
    + assert (Htot : (quaverTotalDuration (gen L1) + d1 ==
                      (quaverTotalDuration (gen L2) + d2) * (120 / bpm))%Q)
        by (rewrite D1, Hd; ring).
      rewrite (Qlt_bool_compat (1 * (120 / bpm)) (1 * (120 / bpm)) _ _ (Qeq_refl _) Htot).
      rewrite Qlt_bool_scale by exact Htf.
      rewrite (Qlt_bool_compat (1 * (120 / 120)) 1 (quaverTotalDuration (gen L2) + d2)
                 (quaverTotalDuration (gen L2) + d2)) by (try field; reflexivity).
      assert (HR2 : tscale bpm
        (set_gen (gen_with_total (quaverTotalDuration (gen L1) + d1)
           (mkGen bpm (time (gen L1) + d1 * 1000) (gx (gen L1) + d1 * v) (gclavier (gen L1))
              true (quaverTotalDuration (gen L1)) (quaverSectionElements (gen L1))))
           (mkLayout (noteTime L1 ++ [time (gen L1)]) (visualNotes L1 ++ [setX (gx (gen L1)) vn1])
              (quaverSections L1) (noteLines L1) (claviers L1)
              (mkGen bpm (time (gen L1) + d1 * 1000) (gx (gen L1) + d1 * v) (gclavier (gen L1))
                 true (quaverTotalDuration (gen L1)) (quaverSectionElements (gen L1)))))
        (set_gen (gen_with_total (quaverTotalDuration (gen L2) + d2)
           (mkGen 120 (time (gen L2) + d2 * 1000) (gx (gen L2) + d2 * v) (gclavier (gen L2))
              true (quaverTotalDuration (gen L2)) (quaverSectionElements (gen L2))))
           (mkLayout (noteTime L2 ++ [time (gen L2)]) (visualNotes L2 ++ [setX (gx (gen L2)) vn2])
              (quaverSections L2) (noteLines L2) (claviers L2)
              (mkGen 120 (time (gen L2) + d2 * 1000) (gx (gen L2) + d2 * v) (gclavier (gen L2))
                 true (quaverTotalDuration (gen L2)) (quaverSectionElements (gen L2)))))).
      { unfold tscale. simpl. rewrite !length_app, N1. repeat split; assumption. }
      destruct (ch || Qlt_bool 1 (quaverTotalDuration (gen L2) + d2)).
      * apply tscale_open; [exact Hb | exact Hd |]. apply tscale_close. exact HR2.
      * apply tscale_open; [exact Hb | exact Hd |].
        destruct HR2 as (U1 & U2 & U3 & U4 & U5 & U6).
        unfold tscale. simpl in *. rewrite U4. repeat split; assumption.
  - apply tscale_open; [exact Hb | exact Hd | exact HR1].
Qed.

Lemma registerVisualNotes_tscale (v bpm : Q) (ch : bool) (vns1 vns2 : list VisualNote) (L1 L2 : Layout) :
  (0 < bpm)%Q ->
  Forall2 (fun a b => vn_duration a == vn_duration b * (120 / bpm))%Q vns1 vns2 ->
  tscale bpm L1 L2 ->
  tscale bpm (fold_left (registerVisualNote v ch) vns1 L1) (fold_left (registerVisualNote v ch) vns2 L2).
Proof.
  intros Hb HF. revert L1 L2. induction HF as [|a b vns1 vns2 Hab HF IH]; intros L1 L2 HR; simpl;
    [exact HR|].
  apply IH. apply registerVisualNote_tscale; assumption.
Qed.

Lemma Forall2_durations (tf : Q) (g1 g2 : nat -> Q) (ids : list nat) (l1 l2 : list VisualNote) :
  map vn_duration l1 = map g1 ids -> map vn_duration l2 = map g2 ids ->
  (forall id, g1 id == g2 id * tf)%Q ->
  Forall2 (fun a b => vn_duration a == vn_duration b * tf)%Q l1 l2.
Proof.
  intros H1 H2 Hg. revert l1 l2 H1 H2.
  induction ids as [|id ids IH]; intros [|a l1] [|b l2] H1 H2; simpl in *; try discriminate.
  - constructor.
  - injection H1 as Ha H1. injection H2 as Hb H2. constructor.
    + rewrite Ha, Hb. apply Hg.
    + apply IH; assumption.
Qed.

Lemma createVisualNotes_tscale (bpm : Q) (n : Note) :
  (0 < bpm)%Q ->
  Forall2 (fun a b => vn_duration a == vn_duration b * (120 / bpm))%Q
    (snd (createVisualNotesWith bpm n)) (snd (createVisualNotesWith 120 n)).
Proof.
  intros Hb. eapply Forall2_durations; [apply createVisualNotes_durations | apply createVisualNotes_durations |].
  intros id. simpl. field. intros E. rewrite E in Hb. discriminate.
Qed.

(** C10. A note registered while the current tempo is [bpm] yields visual
    notes whose durations are the base durations at 120 bpm of their
    symbols times [120 / bpm]; at twice the tempo each duration is halved.
    The beaming thresholds of [registerNote] ([noteDuration[3] * timeFactor]
    and [1 * timeFactor]) carry the same factor: registering the note at
    tempo [bpm] takes the same beaming decisions as registering it at 120
    bpm from the same state, with the group total converted to 120-bpm
    units ([L120]): the same group flag, the same group members, and the
    group total scaled by [120 / bpm]. *)
Theorem registerNote_tempo_scale (v : Q) (L : Layout) (n : Note) :
  let bpm := currentTempo (gen L) in
  (0 < bpm)%Q ->
  map vn_duration (skipn (length (visualNotes L)) (visualNotes (registerNote v L n))) =
    map (fun id => (nthQ noteDuration id * (120 / bpm))%Q) (symbolIds (duration n)) /\
  (forall id, nthQ noteDuration id * (120 / (2 * bpm)) == nthQ noteDuration id * (120 / bpm) / 2)%Q /\
  (let g := gen L in
   let L120 := set_gen (mkGen 120 (time g) (gx g) (gclavier g) (quaverSection g)
                              (quaverTotalDuration g * (bpm / 120)) (quaverSectionElements g)) L in
   let g1 := gen (registerNote v L n) in
   let g2 := gen (registerNote v L120 n) in
   quaverSection g1 = quaverSection g2 /\
   quaverSectionElements g1 = quaverSectionElements g2 /\
   (quaverTotalDuration g1 == quaverTotalDuration g2 * (120 / bpm))%Q).
Proof.
  cbv zeta. intros Hbpm. split; [|split].
  - destruct (registerNote_frame v L n) as (A1 & _ & _). cbv zeta in A1.
    rewrite <- (map_map xd snd), <- skipn_map, A1.
    replace (length (visualNotes L)) with (length (map xd (visualNotes L))) by apply length_map.
    rewrite skipn_length_app, chainXs_snd. apply createVisualNotes_durations.
  - intros id. unfold Qdiv. rewrite Qinv_mult_distr. ring.
  - set (L120 := set_gen _ L).
    assert (HR : tscale (currentTempo (gen L)) (registerNote v L n) (registerNote v L120 n)).
    { unfold registerNote.
      replace (currentTempo (gen L120)) with 120%Q by reflexivity.
      pose proof (createVisualNotes_tscale (currentTempo (gen L)) n Hbpm) as HF.
      destruct (createVisualNotesWith (currentTempo (gen L)) n) as [c1 vns1] eqn:E1.
      destruct (createVisualNotesWith 120 n) as [c2 vns2] eqn:E2.
      replace c2 with c1 by (unfold createVisualNotesWith in E1, E2; congruence).
      simpl in HF.
      replace (claviers L120) with (claviers L) by reflexivity.
      replace (time (gen_with_clavier c1 (gen L120))) with (time (gen_with_clavier c1 (gen L)))
        by reflexivity.
      destruct (pushClavier _ _ _) as [cls ch].
      apply registerVisualNotes_tscale; [exact Hbpm | exact HF |].
      unfold tscale. simpl. repeat split; try reflexivity.
      field. intros E. rewrite E in Hbpm. discriminate. }
    destruct HR as (_ & _ & H1 & H2 & H3 & _). repeat split; assumption.
Qed.

Lemma registerNote_tempo_scale_witness :
  let L := generate 200 400 emptyLayout [ActTempo 60] in
  let n := mkNote 0 4 8 in
  let bpm := currentTempo (gen L) in
  (0 < bpm)%Q /\
  (map vn_duration (skipn (length (visualNotes L)) (visualNotes (registerNote 200 L n))) =
    map (fun id => (nthQ noteDuration id * (120 / bpm))%Q) (symbolIds (duration n)) /\
  (forall id, nthQ noteDuration id * (120 / (2 * bpm)) == nthQ noteDuration id * (120 / bpm) / 2)%Q /\
  (let g := gen L in
   let L120 := set_gen (mkGen 120 (time g) (gx g) (gclavier g) (quaverSection g)
                              (quaverTotalDuration g * (bpm / 120)) (quaverSectionElements g)) L in
   let g1 := gen (registerNote 200 L n) in
   let g2 := gen (registerNote 200 L120 n) in
   quaverSection g1 = quaverSection g2 /\
   quaverSectionElements g1 = quaverSectionElements g2 /\
   (quaverTotalDuration g1 == quaverTotalDuration g2 * (120 / bpm))%Q)).
Proof.
  cbv zeta. split; [reflexivity|].
  apply (registerNote_tempo_scale 200 (generate 200 400 emptyLayout [ActTempo 60]) (mkNote 0 4 8)).
  reflexivity.
Defined.
